(** * chempy.kinetics.rates: rate expressions and the law of mass action

    A shallow embedding of [src/chempy/kinetics/rates.py] and the
    properties of its parameter flattening / rebuilding protocol.

    Python values are kept opaque: a scalar is an element of a type [V]
    that comes with the arithmetic the module applies to it and with the
    two observations [_eval_k] makes of an object ([callable] and the name
    of its class).  Exceptions are values of [exn]; a computation that may
    raise returns a [result]. *)

From Stdlib Require Import List ZArith String Bool Lia Floats.
From Stdlib Require QArith Qcanon.
Import ListNotations.

Set Warnings "-register-all,-inexact-float".

Local Open Scope string_scope.
Local Open Scope list_scope.
Local Open Scope Z_scope.

(** ** Exceptions and the error monad *)

Inductive exn : Type :=
| ValueError (msg : string)
| TypeError
| IndexError
| KeyError
| AttributeError
| NotImplementedError
| ZeroDivisionError
| OverflowError
| StopIteration
| RecursionError
| ReferenceError.

Inductive result (A : Type) : Type :=
| Ok (a : A)
| Raise (e : exn).

Arguments Ok {A} a.
Arguments Raise {A} e.

Definition bind {A B : Type} (m : result A) (k : A -> result B) : result B :=
  match m with
  | Ok a => k a
  | Raise e => Raise e
  end.

Declare Scope py_scope.
Delimit Scope py_scope with py.
Notation "x <- m ;; k" := (bind m (fun x => k))
  (at level 61, m at next level, right associativity) : py_scope.
Local Open Scope py_scope.

Definition is_ok {A : Type} (m : result A) : bool :=
  match m with Ok _ => true | Raise _ => false end.

(** The value of an outcome, when it is one. *)
Definition returned {A : Type} (m : result A) : option A :=
  match m with Ok a => Some a | Raise _ => None end.

(** ** Python sequences *)

Definition len {A : Type} (l : list A) : Z := Z.of_nat (List.length l).

(** [l[i]]: a negative index counts from the end, an index outside
    [-len(l) .. len(l)-1] raises IndexError. *)
Definition py_getitem {A : Type} (l : list A) (i : Z) : result A :=
  let j := if i <? 0 then i + len l else i in
  if (0 <=? j) && (j <? len l) then
    match nth_error l (Z.to_nat j) with
    | Some a => Ok a
    | None => Raise IndexError
    end
  else Raise IndexError.

(** [l[lo:hi]]: both bounds are clipped to the sequence, never raises. *)
Definition py_slice {A : Type} (l : list A) (lo hi : Z) : list A :=
  let clip i := if i <? 0 then Z.max 0 (i + len l) else Z.min i (len l) in
  firstn (Z.to_nat (clip hi - clip lo)) (skipn (Z.to_nat (clip lo)) l).

(** [range(n)] *)
Definition range (n : Z) : list Z := map Z.of_nat (seq 0 (Z.to_nat n)).

(** [sum(l)] on a list of integers. *)
Definition sum (l : list Z) : Z := fold_left Z.add l 0.

(** [np.cumsum(l)]: the running sums of [l].  numpy adds in machine
    integers; the sums taken here count the scalar leaves of a tree and
    stay far below their range, so they are taken in [Z]. *)
Fixpoint cumsum_from (acc : Z) (l : list Z) : list Z :=
  match l with
  | [] => []
  | x :: l' => (acc + x) :: cumsum_from (acc + x) l'
  end.

Definition cumsum (l : list Z) : list Z := cumsum_from 0 l.

(** A [for] loop that updates one variable and whose body may raise. *)
Fixpoint foldM {A B : Type} (f : B -> A -> result B) (l : list A) (b : B) : result B :=
  match l with
  | [] => Ok b
  | a :: l' => b' <- f b a ;; foldM f l' b'
  end.

(** [functools.reduce(f, l)] without initial value: TypeError on an empty
    sequence, otherwise the left fold started at the first item, which
    stops at the first call of [f] that raises. *)
Definition reduce {A : Type} (f : A -> A -> result A) (l : list A) : result A :=
  match l with
  | [] => Raise TypeError
  | x :: l' => foldM f l' x
  end.

(** A list comprehension whose element expression may raise: the items are
    computed left to right and the first exception ends the comprehension. *)
Fixpoint mapM {A B : Type} (f : A -> result B) (l : list A) : result (list B) :=
  match l with
  | [] => Ok []
  | a :: l' => b <- f a ;; bs <- mapM f l' ;; Ok (b :: bs)
  end.

(** [for i, x in enumerate(l): out.append(f(i, x))], started at index [i]. *)
Definition enum_mapM {A B : Type} (f : Z -> A -> result B) : Z -> list A -> result (list B) :=
  fix go (i : Z) (l : list A) : result (list B) :=
    match l with
    | [] => Ok []
    | a :: l' => b <- f i a ;; bs <- go (i + 1) l' ;; Ok (b :: bs)
    end.

(** ** Scalars

    The arithmetic of the (numeric or symbolic) scalars: [one] is the
    integer literal [1] the generator starts its product with, and [pow]
    is [**] with an exponent of the coefficient type [C].  The module
    guards none of these operations: each of them returns a value or
    raises what the scalar type raises (ZeroDivisionError on a division
    by zero, OverflowError on a power out of range, TypeError on operands
    that cannot be combined). *)

Class Scalar (V C : Type) : Type := {
  one : V;
  add : V -> V -> result V;
  mul : V -> V -> result V;
  div : V -> V -> result V;
  pow : V -> C -> result V
}.

(** What [_eval_k] observes of an object: [callable(k)],
    [k.__class__.__name__] and the call [k(state)]. *)

Class PyObject (V State : Type) : Type := {
  callable : V -> bool;
  class_name : V -> string;
  call : V -> State -> V
}.

(** ** Generators

    The finite run of a generator: it yields a value and goes on, ends
    (StopIteration), or dies on an exception raised by its body. *)

Inductive generator (A : Type) : Type :=
| Stop
| Throw (e : exn)
| Yield (a : A) (rest : generator A).

Arguments Stop {A}.
Arguments Throw {A} e.
Arguments Yield {A} a rest.

(** The values a generator yields when it is consumed to its end. *)
Fixpoint yielded {A : Type} (g : generator A) : list A :=
  match g with
  | Yield a rest => a :: yielded rest
  | _ => []
  end.

(** [next(g)]: the first value, if the generator yields one. *)
Definition next {A : Type} (g : generator A) : result A :=
  match g with
  | Yield a _ => Ok a
  | Throw e => Raise e
  | Stop => Raise StopIteration
  end.

(** [enumerate(l, i)] *)
Fixpoint enumerate_from {A : Type} (i : Z) (l : list A) : list (Z * A) :=
  match l with
  | [] => []
  | a :: l' => (i, a) :: enumerate_from (i + 1) l'
  end.

Definition enumerate {A : Type} (l : list A) : list (Z * A) := enumerate_from 0 l.

(** The generator that yields the values of a list of outcomes in order
    and dies on the first exception among them. *)
Fixpoint yield_all {A : Type} (l : list (result A)) : generator A :=
  match l with
  | [] => Stop
  | Ok a :: l' => Yield a (yield_all l')
  | Raise e :: _ => Throw e
  end.

(** The values of a list of outcomes up to its first exception. *)
Fixpoint ok_prefix {A : Type} (l : list (result A)) : list A :=
  match l with
  | Ok a :: l' => a :: ok_prefix l'
  | _ => []
  end.

(** The classes of the module: the base class and its four subclasses,
    with the class attribute [nargs] of each. *)
Inductive rate_class : Type :=
| _RateExpr
| MassAction
| GeneralPow
| Sum
| Quotient.

Definition class_nargs (cls : rate_class) : Z :=
  match cls with
  | _RateExpr => 0
  | MassAction => 1
  | GeneralPow => 1
  | Sum => -1
  | Quotient => 2
  end.

(** An argument of a node: a scalar leaf, or a nested node
    ([isinstance(arg, _RateExpr)]). *)
Inductive arg (V N : Type) : Type :=
| Leaf (v : V)
| Expr (e : N).

Arguments Leaf {V N} v.
Arguments Expr {V N} e.

Section Rates.

Context {V C State : Type} `{PO : PyObject V State} `{SC : Scalar V C}.
Variable K : Type.       (* substance keys *)
Variable R : Type.       (* the [ref] annotation *)

(** *** The reaction system, as far as the module reads it *)

Record Reaction : Type := {
  reac : list (K * C);   (* [rxn.reac.items()], in iteration order *)
  param : V
}.

Record ReactionSystem : Type := {
  rxns : list Reaction;
  as_substance_index : K -> result Z
}.

(** *** [_eval_k] *)

Definition _eval_k (k : V) (state : State) : V :=
  let is_func := callable k && negb (class_name k =? "Symbol")%string in
  if is_func then call k state else k.

(** *** [law_of_mass_action_rates] *)

(** The inner loop, over the items of [rxn.reac]: [rate] starts at [1]
    and is multiplied by one power per item; a key without index, an
    index outside [conc], a power or a product that raises ends it. *)
Definition rate_loop (conc : list V) (rsys : ReactionSystem)
    (rxn : Reaction) : result V :=
  foldM (fun rate '(substance_key, coeff) =>
           s_idx <- as_substance_index rsys substance_key ;;
           c <- py_getitem conc s_idx ;;
           p <- pow c coeff ;;
           mul rate p)
        (reac rxn) one.

(** The body of the loop over the reactions, for reaction [rxn] at index
    [rxn_idx]: the value to yield, or the exception raised on the way. *)
Definition rate_of (conc : list V) (rsys : ReactionSystem)
    (params : option (list V)) (state : State)
    (rxn_idx : Z) (rxn : Reaction) : result V :=
  rate <- rate_loop conc rsys rxn ;;
  match params with
  | None => mul rate (_eval_k (param rxn) state)
  | Some ps => p <- py_getitem ps rxn_idx ;; mul rate (_eval_k p state)
  end.

Fixpoint rates_from (conc : list V) (rsys : ReactionSystem)
    (params : option (list V)) (state : State)
    (rxn_idx : Z) (l : list Reaction) : generator V :=
  match l with
  | [] => Stop
  | rxn :: l' =>
      match rate_of conc rsys params state rxn_idx rxn with
      | Ok v => Yield v (rates_from conc rsys params state (rxn_idx + 1) l')
      | Raise e => Throw e
      end
  end.

Definition law_of_mass_action_rates (conc : list V) (rsys : ReactionSystem)
    (params : option (list V)) (state : State) : generator V :=
  rates_from conc rsys params state 0 (rxns rsys).

(** *** The tree *)

Inductive node : Type := Node {
  __class__ : rate_class;
  nargs : Z;                           (* [self.nargs] *)
  args : list (arg V node);
  hard_args : option (list (K * C));   (* [None] or a mapping *)
  ref : R;
  _nscalars : list Z;
  _accum_nscalars : list Z
}.

Definition _get_nscalars (args : list (arg V node)) : list Z :=
  map (fun a => match a with
                | Expr e => sum (_nscalars e)
                | Leaf _ => 1
                end) args.

Definition __init__ (cls : rate_class) (args : list (arg V node))
    (hard_args : option (list (K * C))) (ref : R) : result node :=
  if class_nargs cls =? 0 then Raise (ValueError "nargs need to be set")
  else
    let nargs := if class_nargs cls =? -1 then len args else class_nargs cls in
    if negb (len args =? nargs) then Raise (ValueError "Incorrect number of parameters")
    else
      let nscalars := _get_nscalars args in
      Ok (Node cls nargs args hard_args ref nscalars (cumsum (0 :: nscalars))).

Definition _sub_params (self : node) (i : Z) (params : option (list V))
    : result (option (list V)) :=
  match params with
  | None => Ok None
  | Some ps =>
      lo <- py_getitem (_accum_nscalars self) i ;;
      hi <- py_getitem (_accum_nscalars self) (i + 1) ;;
      Ok (Some (py_slice ps lo hi))
  end.

Fixpoint rebuild (self : node) (params : option (list V)) {struct self} : result node :=
  args' <- enum_mapM (fun i a =>
             match a with
             | Expr e => p <- _sub_params self i params ;;
                         e' <- rebuild e p ;; Ok (Expr e')
             | Leaf v =>
                 match params with
                 | None => Ok (Leaf v)
                 | Some ps =>
                     if negb (len ps =? 1)
                     then Raise (ValueError "Incorrect length of params")
                     else p0 <- py_getitem ps 0 ;; Ok (Leaf p0)
                 end
             end) 0 (args self) ;;
  __init__ (__class__ self) args' (hard_args self) (ref self).

Fixpoint get_params (self : node) : list V :=
  flat_map (fun a => match a with
                     | Expr e => get_params e
                     | Leaf v => [v]
                     end) (args self).

(** *** Evaluation

    [eval] is the method each subclass overrides; [eval_formula] gives the
    body of each override over the node's own [eval_arg].  The recursion
    goes through the nested nodes of [self.args]: inside [eval] they are
    reached through [nested], the evaluators of the arguments in argument
    order, and [eval_arg] below is the method as the source writes it
    ([eval_unfold] relates the two). *)

Definition factors (concs : list V) (rsys : ReactionSystem)
    (powers : list (K * C)) : result (list V) :=
  mapM (fun '(k, v) =>
          idx <- as_substance_index rsys k ;;
          c <- py_getitem concs idx ;;
          pow c v) powers.

Definition eval_formula (self : node)
    (eval_arg : Z -> option (list V) -> result V)
    (rsys : ReactionSystem) (ri : Z) (concs : list V)
    (params : option (list V)) : result V :=
  match __class__ self with
  | _RateExpr => Raise NotImplementedError
  | MassAction =>
      k <- eval_arg 0 params ;;
      rxn <- py_getitem (rxns rsys) ri ;;
      fs <- factors concs rsys (reac rxn) ;;
      p <- reduce mul fs ;;
      mul k p
  | GeneralPow =>
      k <- eval_arg 0 params ;;
      match hard_args self with
      | None => Raise AttributeError
      | Some powers =>
          fs <- factors concs rsys powers ;;
          p <- reduce mul fs ;;
          mul k p
      end
  | Sum =>
      xs <- mapM (fun idx => eval_arg idx params) (range (nargs self)) ;;
      reduce add xs
  | Quotient =>
      a <- eval_arg 0 params ;;
      b <- eval_arg 1 params ;;
      div a b
  end.

Definition eval_arg_with (nested : list (option (list V) -> result V))
    (self : node) (i : Z) (params : option (list V)) : result V :=
  a <- py_getitem (args self) i ;;
  match a with
  | Expr _ =>
      p <- _sub_params self i params ;;
      ev <- py_getitem nested i ;;
      ev p
  | Leaf v =>
      match params with
      | None => Ok v
      | Some ps =>
          if negb (len ps =? 1)
          then Raise (ValueError "Incorrect length of params")
          else py_getitem ps 0
      end
  end.

Fixpoint eval (self : node) (rsys : ReactionSystem) (ri : Z)
    (concs : list V) (params : option (list V)) {struct self} : result V :=
  eval_formula self
    (eval_arg_with
       (map (fun a => match a with
                      | Expr e => eval e rsys ri concs
                      | Leaf v => fun _ => Ok v
                      end) (args self))
       self)
    rsys ri concs params.

Definition eval_arg (self : node) (rsys : ReactionSystem) (ri : Z)
    (concs : list V) (i : Z) (params : option (list V)) : result V :=
  a <- py_getitem (args self) i ;;
  match a with
  | Expr e =>
      p <- _sub_params self i params ;;
      eval e rsys ri concs p
  | Leaf v =>
      match params with
      | None => Ok v
      | Some ps =>
          if negb (len ps =? 1)
          then Raise (ValueError "Incorrect length of params")
          else py_getitem ps 0
      end
  end.

(** The loop of [rebuild] over [self.args]. *)
Definition rebuild_arg (self : node) (params : option (list V))
    (i : Z) (a : arg V node) : result (arg V node) :=
  match a with
  | Expr e => p <- _sub_params self i params ;;
              e' <- rebuild e p ;; Ok (Expr e')
  | Leaf v =>
      match params with
      | None => Ok (Leaf v)
      | Some ps =>
          if negb (len ps =? 1)
          then Raise (ValueError "Incorrect length of params")
          else p0 <- py_getitem ps 0 ;; Ok (Leaf p0)
      end
  end.

(** An argument and its rebuilt counterpart: leaves stay leaves, a nested
    node is replaced by a rebuild of itself. *)
Definition rebuilt_arg (a b : arg V node) : Prop :=
  match a, b with
  | Leaf _, Leaf _ => True
  | Expr e, Expr e' => exists p, rebuild e p = Ok e'
  | _, _ => False
  end.

(** *** The rate in the words of the specification

    These three definitions follow the specification and use none of the
    functions above. *)

(** [resolve(k, state)]: a callable parameter that is not a symbol is
    called with the state; every other parameter is its own value. *)
Definition spec_resolve (k : V) (state : State) : V :=
  if callable k
  then if (class_name k =? "Symbol")%string then k else call k state
  else k.

(** [concentrations[index(key)] ** coeff] for one entry of [reac]. *)
Definition spec_power (conc : list V) (rsys : ReactionSystem)
    (entry : K * C) : result V :=
  idx <- as_substance_index rsys (fst entry) ;;
  c <- py_getitem conc idx ;;
  pow c (snd entry).

(** The rate of reaction [i]: the product, started at [1], of the powers
    over the entries of [reac], times the resolved parameter, which is the
    reaction's own when [params] is absent and [params[i]] otherwise.  It
    is defined when every part of it is. *)
Definition spec_rate (conc : list V) (rsys : ReactionSystem)
    (params : option (list V)) (state : State) (i : Z) (rxn : Reaction) : result V :=
  k <- match params with
       | None => Ok (param rxn)
       | Some ps => py_getitem ps i
       end ;;
  powers <- mapM (spec_power conc rsys) (reac rxn) ;;
  product <- foldM mul powers one ;;
  mul product (spec_resolve k state).

(** *** Constructed trees

    The nodes a program can hold are those [__init__] returned, on
    arguments that are scalars or nodes built before. *)

Inductive constructed : node -> Prop :=
| constructed_init (cls : rate_class) (args : list (arg V node))
    (hard_args : option (list (K * C))) (ref : R) (self : node) :
    (forall e, In (Expr e) args -> constructed e) ->
    __init__ cls args hard_args ref = Ok self ->
    constructed self.

(** The shape of a tree: everything but the values of its scalar leaves. *)
Inductive shape_t : Type :=
| Shape (cls : rate_class) (nargs : Z) (hard_args : option (list (K * C)))
    (ref : R) (nscalars accum_nscalars : list Z)
    (children : list (option shape_t)).

Fixpoint shape (self : node) : shape_t :=
  Shape (__class__ self) (nargs self) (hard_args self) (ref self)
    (_nscalars self) (_accum_nscalars self)
    (map (fun a => match a with
                   | Expr e => Some (shape e)
                   | Leaf _ => None
                   end) (args self)).

End Rates.

Arguments Reaction V C K : clear implicits.
Arguments ReactionSystem V C K : clear implicits.
Arguments node V C K R : clear implicits.
Arguments shape_t C K R : clear implicits.
Arguments Node {V C K R}.
Arguments Shape {C K R}.
Arguments __class__ {V C K R} self : rename.
Arguments nargs {V C K R} self : rename.
Arguments args {V C K R} self : rename.
Arguments hard_args {V C K R} self : rename.
Arguments ref {V C K R} self : rename.
Arguments _nscalars {V C K R} self : rename.
Arguments _accum_nscalars {V C K R} self : rename.
Arguments reac {V C K} r : rename.
Arguments param {V C K} r : rename.
Arguments rxns {V C K} r : rename.
Arguments as_substance_index {V C K} r key : rename.
Arguments rate_loop {V C SC K}.
Arguments rate_of {V C State PO SC K}.
Arguments rates_from {V C State PO SC K}.
Arguments law_of_mass_action_rates {V C State PO SC K}.
Arguments _get_nscalars {V C K R}.
Arguments __init__ {V C K R}.
Arguments _sub_params {V C K R}.
Arguments rebuild {V C K R}.
Arguments get_params {V C K R}.
Arguments factors {V C SC K}.
Arguments eval_formula {V C SC K R}.
Arguments eval_arg_with {V C K R}.
Arguments eval {V C SC K R}.
Arguments eval_arg {V C SC K R}.
Arguments constructed {V C K R}.
Arguments constructed_init {V C K R}.
Arguments shape {V C K R}.
Arguments rebuild_arg {V C K R}.
Arguments rebuilt_arg {V C K R}.
Arguments spec_resolve {V State PO}.
Arguments spec_power {V C SC K}.
Arguments spec_rate {V C State PO SC K}.

(** ** Node objects in a store

    To speak of what [rebuild] does to the objects that exist when it is
    called, the nodes are placed in a store: an object per node, at an
    address, whose nested arguments are addresses.  The store only holds
    initialised objects; [__init__] appends the object it initialises.
    The recursion of [rebuild] is bounded by a depth, as the interpreter
    bounds it (RecursionError); an address outside the store, which no
    Python program can hold, raises ReferenceError. *)

Section Store.

Context {V C K R : Type}.

Definition addr : Type := nat.

Record object : Type := Object {
  o_class : rate_class;
  o_nargs : Z;
  o_args : list (arg V addr);
  o_hard_args : option (list (K * C));
  o_ref : R;
  o_nscalars : list Z;
  o_accum_nscalars : list Z
}.

Definition store : Type := list object.

Definition deref (s : store) (a : addr) : result object :=
  match nth_error s a with
  | Some o => Ok o
  | None => Raise ReferenceError
  end.

Definition store_get_nscalars (s : store) (l : list (arg V addr)) : result (list Z) :=
  mapM (fun a => match a with
                 | Expr a' => o <- deref s a' ;; Ok (sum (o_nscalars o))
                 | Leaf _ => Ok 1
                 end) l.

(** [cls(args, hard_args, ref)]: the address of the new object. *)
Definition store_init (cls : rate_class) (l : list (arg V addr))
    (hard : option (list (K * C))) (r : R) (s : store) : store * result addr :=
  if class_nargs cls =? 0 then (s, Raise (ValueError "nargs need to be set"))
  else
    let nargs := if class_nargs cls =? -1 then len l else class_nargs cls in
    if negb (len l =? nargs) then (s, Raise (ValueError "Incorrect number of parameters"))
    else
      match store_get_nscalars s l with
      | Raise e => (s, Raise e)
      | Ok nscalars =>
          (s ++ [Object cls nargs l hard r nscalars (cumsum (0 :: nscalars))],
           Ok (List.length s))
      end.

Definition store_sub_params (s : store) (self : addr) (i : Z)
    (params : option (list V)) : result (option (list V)) :=
  match params with
  | None => Ok None
  | Some ps =>
      o <- deref s self ;;
      lo <- py_getitem (o_accum_nscalars o) i ;;
      hi <- py_getitem (o_accum_nscalars o) (i + 1) ;;
      Ok (Some (py_slice ps lo hi))
  end.

(** An enumerating loop whose body works on the store. *)
Definition enum_mapS {A B : Type} (f : Z -> A -> store -> store * result B)
    : Z -> list A -> store -> store * result (list B) :=
  fix go (i : Z) (l : list A) (s : store) : store * result (list B) :=
    match l with
    | [] => (s, Ok [])
    | a :: l' =>
        match f i a s with
        | (s1, Raise e) => (s1, Raise e)
        | (s1, Ok b) =>
            match go (i + 1) l' s1 with
            | (s2, Raise e) => (s2, Raise e)
            | (s2, Ok bs) => (s2, Ok (b :: bs))
            end
        end
    end.

(** The body of the loop of [rebuild] over [self.args], over the
    recursive call [rebuild_at] on a nested argument. *)
Definition store_rebuild_arg
    (rebuild_at : addr -> option (list V) -> store -> store * result addr)
    (self : addr) (params : option (list V))
    (i : Z) (a : arg V addr) (s : store) : store * result (arg V addr) :=
  match a with
  | Expr a' =>
      match store_sub_params s self i params with
      | Raise e => (s, Raise e)
      | Ok p =>
          match rebuild_at a' p s with
          | (s', Raise e) => (s', Raise e)
          | (s', Ok a'') => (s', Ok (Expr a''))
          end
      end
  | Leaf v =>
      match params with
      | None => (s, Ok (Leaf v))
      | Some ps =>
          if negb (len ps =? 1)
          then (s, Raise (ValueError "Incorrect length of params"))
          else (s, p0 <- py_getitem ps 0 ;; Ok (Leaf p0))
      end
  end.

Fixpoint store_rebuild (limit : nat) (self : addr) (params : option (list V))
    (s : store) : store * result addr :=
  match limit with
  | O => (s, Raise RecursionError)
  | S limit' =>
      match deref s self with
      | Raise e => (s, Raise e)
      | Ok o =>
          match
            enum_mapS (store_rebuild_arg (store_rebuild limit') self params)
                      0 (o_args o) s
          with
          | (s1, Raise e) => (s1, Raise e)
          | (s1, Ok args') =>
              match deref s1 self with
              | Raise e => (s1, Raise e)
              | Ok o1 => store_init (o_class o1) args' (o_hard_args o1) (o_ref o1) s1
              end
          end
      end
  end.

(** The object at an address of the store represents a tree. *)
Inductive repr (s : store) : addr -> node V C K R -> Prop :=
| repr_object (a : addr) (o : object) (T : node V C K R) :
    nth_error s a = Some o ->
    o_class o = __class__ T ->
    o_nargs o = nargs T ->
    o_hard_args o = hard_args T ->
    o_ref o = ref T ->
    o_nscalars o = _nscalars T ->
    o_accum_nscalars o = _accum_nscalars T ->
    repr_args s (o_args o) (args T) ->
    repr s a T
with repr_args (s : store) : list (arg V addr) -> list (arg V (node V C K R)) -> Prop :=
| repr_nil : repr_args s [] []
| repr_leaf (v : V) (oas : list (arg V addr)) (tas : list (arg V (node V C K R))) :
    repr_args s oas tas -> repr_args s (Leaf v :: oas) (Leaf v :: tas)
| repr_expr (a : addr) (e : node V C K R)
    (oas : list (arg V addr)) (tas : list (arg V (node V C K R))) :
    repr s a e -> repr_args s oas tas ->
    repr_args s (Expr a :: oas) (Expr e :: tas).

(** The depth of a tree: the recursion [rebuild] needs on it. *)
Fixpoint depth (self : node V C K R) : nat :=
  S (list_max (map (fun a => match a with
                             | Expr e => depth e
                             | Leaf _ => O
                             end) (args self))).

(** A run on the store simulates a pure result: the store is extended,
    and the address returned represents the tree returned. *)
Definition simulates (s : store) (out : store * result addr)
    (pure : result (node V C K R)) : Prop :=
  exists s_new r,
    out = (s ++ s_new, r)
    /\ match pure with
       | Ok T' => exists a', r = Ok a' /\ (List.length s <= a')%nat
                             /\ repr (s ++ s_new) a' T'
       | Raise e => r = Raise e
       end.

End Store.

Arguments object V C K R : clear implicits.
Arguments store V C K R : clear implicits.

Scheme repr_mut := Minimality for repr Sort Prop
  with repr_args_mut := Minimality for repr_args Sort Prop.

(** ** A concrete scalar type: binary64 floats

    Python's [float].  A sum and a product of floats never raise, they
    round and overflow to an infinity; a quotient raises
    ZeroDivisionError when the denominator compares equal to [0.0], which
    both zeros do and a NaN does not.  A power [x ** n] is computed by the
    C library and raises OverflowError when the result is out of range;
    the coefficients are restricted here to the two exponents where the
    power is known exactly and never raises: [x ** 0] is [1.0] and
    [x ** 1] is [x]. *)

Inductive exponent : Type :=
| Zeroth      (* the [int] 0 *)
| First.      (* the [int] 1 *)

Definition float_pow (x : float) (n : exponent) : result float :=
  match n with
  | Zeroth => Ok 1%float
  | First => Ok x
  end.

Definition float_div (x y : float) : result float :=
  if PrimFloat.eqb y 0%float then Raise ZeroDivisionError
  else Ok (PrimFloat.div x y).

#[export] Instance float_scalar : Scalar float exponent := {
  one := 1%float;
  add := fun x y => Ok (PrimFloat.add x y);
  mul := fun x y => Ok (PrimFloat.mul x y);
  div := float_div;
  pow := float_pow
}.

(** A float is not callable. *)
#[export] Instance float_object : PyObject float unit := {
  callable := fun _ => false;
  class_name := fun _ => "float";
  call := fun x _ => x
}.

(** ** Rate parameters of three kinds

    A number, a symbol of a computer algebra system (of class [Symbol],
    and callable: applying a symbol makes an expression) and a function
    of the state, here a temperature. *)

Inductive rate_param : Type :=
| Number (x : Z)
| Symbol (name : string)
| Applied (name : string) (temperature : Z)
| Provider (f : Z -> Z).

#[export] Instance rate_param_object : PyObject rate_param Z := {
  callable := fun k => match k with
                       | Symbol _ | Provider _ => true
                       | _ => false
                       end;
  class_name := fun k => match k with
                         | Number _ => "int"
                         | Symbol _ => "Symbol"
                         | Applied _ _ => "AppliedUndef"
                         | Provider _ => "function"
                         end;
  call := fun k temperature => match k with
                               | Provider f => Number (f temperature)
                               | Symbol name => Applied name temperature
                               | _ => k
                               end
}.

(** The reaction system of the docstring of [law_of_mass_action_rates]:
    [H2O -> H+ + OH- ; 1e-4] over the substances [H2O H+ OH-]. *)

Definition water_keys : list string := ["H2O"; "H+"; "OH-"].

Fixpoint index_of (key : string) (keys : list string) (i : Z) : result Z :=
  match keys with
  | [] => Raise KeyError
  | k :: keys' => if (k =? key)%string then Ok i else index_of key keys' (i + 1)
  end.

Definition water_rxn : Reaction float exponent string :=
  {| reac := [("H2O", First)]; param := 1e-4%float |}.

Definition water_rsys : ReactionSystem float exponent string :=
  {| rxns := [water_rxn];
     as_substance_index := fun key => index_of key water_keys 0 |}.

Definition water_conc : list float := [55.4; 1e-7; 1e-7]%float.

(** ** Example trees *)

(** [MassAction([2.0])] *)
Definition ex_mass : node float exponent string unit :=
  Node MassAction 1 [Leaf 2%float] None tt [1] [0; 1].

(** [Sum([])] *)
Definition ex_empty_sum : node float exponent string unit :=
  Node Sum 0 [] None tt [] [0].

(** [Quotient([MassAction([2.0]), Sum([])])]: one scalar in all. *)
Definition ex_tree : node float exponent string unit :=
  Node Quotient 2 [Expr ex_mass; Expr ex_empty_sum] None tt [1; 0] [0; 1; 1].

(** [Quotient([1.0, 2.0])] *)
Definition ex_quotient : node float exponent string unit :=
  Node Quotient 2 [Leaf 1%float; Leaf 2%float] None tt [1; 1] [0; 1; 2].

(** [GeneralPow([1.0], {})] *)
Definition ex_pow : node float exponent string unit :=
  Node GeneralPow 1 [Leaf 1%float] (Some []) tt [1] [0; 1].

(** A system of one reaction without reactants, of parameter [2.0]. *)
Definition bare_rsys : ReactionSystem float exponent string :=
  {| rxns := [ {| reac := []; param := 2%float |} ];
     as_substance_index := fun key => index_of key water_keys 0 |}.

(** The store that holds [ex_tree]: its two nested nodes at addresses 0
    and 1, the tree at address 2. *)
Definition ex_store : store float exponent string unit :=
  [ Object MassAction 1 [Leaf 2%float] None tt [1] [0; 1];
    Object Sum 0 [] None tt [] [0];
    Object Quotient 2 [Expr 0%nat; Expr 1%nat] None tt [1; 0] [0; 1; 1] ].

(** ** Further notions on trees and generators *)

Section Notions.

Context {V C K R : Type}.

Definition is_leaf {N : Type} (a : arg V N) : bool :=
  match a with
  | Leaf _ => true
  | Expr _ => false
  end.

(** A tree [rebuild] can take a parameter vector for: every node that has
    a scalar leaf among its arguments counts exactly one scalar. *)
Fixpoint overridable (self : node V C K R) : bool :=
  (if existsb is_leaf (args self) then sum (_nscalars self) =? 1 else true)
  && forallb (fun a => match a with
                       | Expr e => overridable e
                       | Leaf _ => true
                       end) (args self).

(** The number of nodes of a tree. *)
Fixpoint size (self : node V C K R) : nat :=
  S (list_sum (map (fun a => match a with
                             | Expr e => size e
                             | Leaf _ => O
                             end) (args self))).

(** The exception that ends the run of a generator, if one does. *)
Fixpoint raised {A : Type} (g : generator A) : option exn :=
  match g with
  | Stop => None
  | Throw e => Some e
  | Yield _ rest => raised rest
  end.

(** The number of scalars an argument owns. *)
Definition arg_scalars (a : arg V (node V C K R)) : Z :=
  match a with
  | Leaf _ => 1
  | Expr e => len (get_params e)
  end.

(** The object at [a] and all the objects nested in it lie at or above
    address [n]. *)
Inductive fresh_tree (n : nat) (s : store V C K R) : addr -> Prop :=
| fresh_object (a : addr) (o : object V C K R) :
    nth_error s a = Some o ->
    (n <= a)%nat ->
    (forall a', In (Expr a') (o_args o) -> fresh_tree n s a') ->
    fresh_tree n s a.

(** What [rebuild] on the store allocates for a tree: new objects only,
    one per node. *)
Definition allocates (limit : nat) (e : node V C K R) : Prop :=
  forall (s s' : store V C K R) (a a' : addr) (p : option (list V)),
    repr s a e ->
    store_rebuild limit a p s = (s', Ok a') ->
    fresh_tree (List.length s) s' a'
    /\ List.length s' = (List.length s + size e)%nat.

End Notions.

(** The same tree under other [ref] annotations. *)
Fixpoint map_ref {V C K R R' : Type} (f : R -> R') (self : node V C K R)
    : node V C K R' :=
  Node (__class__ self) (nargs self)
    (map (fun a => match a with
                   | Expr e => Expr (map_ref f e)
                   | Leaf v => Leaf v
                   end) (args self))
    (hard_args self) (f (ref self)) (_nscalars self) (_accum_nscalars self).

(** ** Exact rationals

    Python's [fractions.Fraction], with [int] exponents: a scalar type
    whose multiplication never raises, is commutative and has [1] as its
    unit.  A quotient by zero and a negative power of zero raise
    ZeroDivisionError. *)

Definition Fraction : Type := Qcanon.Qc.

Definition fraction (num : Z) (den : positive) : Fraction :=
  Qcanon.Q2Qc (QArith_base.Qmake num den).

Definition is_zero (x : Fraction) : bool :=
  QArith_base.Qnum (Qcanon.this x) =? 0.

Definition fraction_pow (x : Fraction) (n : Z) : result Fraction :=
  match n with
  | Z0 => Ok (fraction 1 1)
  | Zpos p => Ok (Qcanon.Qcpower x (Pos.to_nat p))
  | Zneg p =>
      if is_zero x then Raise ZeroDivisionError
      else Ok (Qcanon.Qcinv (Qcanon.Qcpower x (Pos.to_nat p)))
  end.

Definition fraction_div (x y : Fraction) : result Fraction :=
  if is_zero y then Raise ZeroDivisionError else Ok (Qcanon.Qcdiv x y).

#[export] Instance fraction_scalar : Scalar Fraction Z := {
  one := fraction 1 1;
  add := fun x y => Ok (Qcanon.Qcplus x y);
  mul := fun x y => Ok (Qcanon.Qcmult x y);
  div := fraction_div;
  pow := fraction_pow
}.

#[export] Instance fraction_object : PyObject Fraction unit := {
  callable := fun _ => false;
  class_name := fun _ => "Fraction";
  call := fun x _ => x
}.

(** The reaction [A + 2 B -> C] of parameter [2] over the substances
    [A B], at the concentrations [3] and [5]. *)
Definition ab_rxn : Reaction Fraction Z string :=
  {| reac := [("A", 1); ("B", 2)]; param := fraction 2 1 |}.

Definition ab_rsys : ReactionSystem Fraction Z string :=
  {| rxns := [ab_rxn];
     as_substance_index := fun key => index_of key ["A"; "B"] 0 |}.

Definition ab_conc : list Fraction := [fraction 3 1; fraction 5 1].

(** [Quotient([MassAction([2.0]), MassAction([1.0])])] *)
Definition ex_mass1 : node float exponent string unit :=
  Node MassAction 1 [Leaf 1%float] None tt [1] [0; 1].

Definition ex_ratio : node float exponent string unit :=
  Node Quotient 2 [Expr ex_mass; Expr ex_mass1] None tt [1; 1] [0; 1; 2].

(** The docstring's system with a second reaction, [H+ + OH- -> H2O]. *)
Definition water2_rsys : ReactionSystem float exponent string :=
  {| rxns := [water_rxn; {| reac := [("H+", First); ("OH-", First)]; param := 1e10%float |}];
     as_substance_index := fun key => index_of key water_keys 0 |}.

(** ** Rationals and functions of the state

    A scalar that is a [Fraction] or a Python function of the state, here
    a temperature, that returns one.  A function is callable and of class
    [function]; arithmetic on a function raises TypeError. *)

Inductive rate_value : Type :=
| Rational (q : Fraction)
| Arrhenius (f : Z -> Fraction).

Definition lift2 (op : Fraction -> Fraction -> result Fraction)
    (x y : rate_value) : result rate_value :=
  match x, y with
  | Rational a, Rational b => q <- op a b ;; Ok (Rational q)
  | _, _ => Raise TypeError
  end.

#[export] Instance rate_value_scalar : Scalar rate_value Z := {
  one := Rational (fraction 1 1);
  add := lift2 add;
  mul := lift2 mul;
  div := lift2 div;
  pow := fun x n => match x with
                    | Rational a => q <- pow a n ;; Ok (Rational q)
                    | Arrhenius _ => Raise TypeError
                    end
}.

#[export] Instance rate_value_object : PyObject rate_value Z := {
  callable := fun k => match k with
                       | Arrhenius _ => true
                       | Rational _ => false
                       end;
  class_name := fun k => match k with
                         | Arrhenius _ => "function"
                         | Rational _ => "Fraction"
                         end;
  call := fun k temperature => match k with
                               | Arrhenius f => Rational (f temperature)
                               | Rational _ => k
                               end
}.

(** The reaction [A + 2 B -> C] over the substances [A B], at the
    concentrations [3] and [5], whose parameter is the function
    [T -> T / 100] of the temperature. *)
Definition law_rxn : Reaction rate_value Z string :=
  {| reac := [("A", 1); ("B", 2)];
     param := Arrhenius (fun temperature => fraction temperature 100) |}.

Definition law_rsys : ReactionSystem rate_value Z string :=
  {| rxns := [law_rxn];
     as_substance_index := fun key => index_of key ["A"; "B"] 0 |}.

Definition law_conc : list rate_value :=
  [Rational (fraction 3 1); Rational (fraction 5 1)].

(** * Properties *)

(** ** Python sequences *)

Lemma bind_ok {A B : Type} (m : result A) (k : A -> result B) (b : B) :
  bind m k = Ok b -> exists a, m = Ok a /\ k a = Ok b.
Proof.
  destruct m as [a|e]; simpl; intros H; [eauto | discriminate].
Qed.

Section Sequences.

Context {A B : Type}.

Lemma len_nonneg (l : list A) : 0 <= len l.
Proof. unfold len; lia. Qed.

Lemma len_cons (a : A) (l : list A) : len (a :: l) = len l + 1.
Proof. unfold len; simpl List.length; lia. Qed.

Lemma len_app (l1 l2 : list A) : len (l1 ++ l2) = len l1 + len l2.
Proof. unfold len; rewrite length_app; lia. Qed.

(** Indexing by a position inside the list never raises. *)
Lemma py_getitem_nat (l : list A) (i : nat) :
  py_getitem l (Z.of_nat i) =
  match nth_error l i with Some a => Ok a | None => Raise IndexError end.
Proof.
  unfold py_getitem, len.
  destruct (Z.ltb_spec (Z.of_nat i) 0) as [Hneg|_]; [lia|].
  destruct (Z.leb_spec 0 (Z.of_nat i)) as [_|Hneg]; [|lia].
  rewrite Nat2Z.id. simpl.
  destruct (Z.ltb_spec (Z.of_nat i) (Z.of_nat (List.length l))) as [Hlt|Hge].
  - reflexivity.
  - destruct (nth_error l i) eqn:E; [|reflexivity].
    assert (nth_error l i <> None) as Hn by congruence.
    apply nth_error_Some in Hn. lia.
Qed.

Lemma py_getitem_ok_nat (l : list A) (i : nat) (a : A) :
  nth_error l i = Some a -> py_getitem l (Z.of_nat i) = Ok a.
Proof. intros H. rewrite py_getitem_nat, H. reflexivity. Qed.

Lemma py_getitem_head (a : A) (l : list A) : py_getitem (a :: l) 0 = Ok a.
Proof. apply (py_getitem_ok_nat (a :: l) 0). reflexivity. Qed.

Lemma py_getitem_map (f : A -> B) (l : list A) (i : Z) :
  py_getitem (map f l) i = (a <- py_getitem l i ;; Ok (f a)).
Proof.
  unfold py_getitem, len. rewrite length_map.
  destruct ((0 <=? _) && (_ <? _)); [|reflexivity].
  rewrite nth_error_map.
  destruct (nth_error l _); reflexivity.
Qed.

(** [l[-1]] is the last item. *)
Lemma py_getitem_last (l : list A) (a : A) :
  py_getitem (l ++ [a]) (-1) = Ok a.
Proof.
  unfold py_getitem, len. rewrite length_app. simpl List.length.
  replace (if -1 <? 0 then _ else _) with (Z.of_nat (List.length l))
    by (destruct (Z.ltb_spec (-1) 0); lia).
  destruct (Z.leb_spec 0 (Z.of_nat (List.length l))); [|lia].
  destruct (Z.ltb_spec (Z.of_nat (List.length l)) (Z.of_nat (List.length l + 1))); [|lia].
  simpl. rewrite Nat2Z.id, nth_error_app2, Nat.sub_diag by lia. reflexivity.
Qed.

End Sequences.

Lemma py_getitem_nonneg_inv {A : Type} (l : list A) (i : Z) (a : A) :
  0 <= i -> py_getitem l i = Ok a ->
  nth_error l (Z.to_nat i) = Some a /\ (Z.to_nat i < List.length l)%nat.
Proof.
  intros Hi. unfold py_getitem.
  destruct (Z.ltb_spec i 0); [lia|].
  destruct ((0 <=? i) && (i <? len l)); [|discriminate].
  destruct (nth_error l (Z.to_nat i)) as [a'|] eqn:E; [|discriminate].
  intros [= <-]. split; [reflexivity|].
  apply nth_error_Some. congruence.
Qed.

Lemma sum_from (l : list Z) (a : Z) : fold_left Z.add l a = a + sum l.
Proof.
  unfold sum. revert a. induction l as [|x l IH]; simpl; intros a.
  - lia.
  - rewrite (IH (a + x)), (IH x). lia.
Qed.

Lemma sum_cons (x : Z) (l : list Z) : sum (x :: l) = x + sum l.
Proof. unfold sum at 1. simpl. apply sum_from. Qed.

Lemma sum_app (l1 l2 : list Z) : sum (l1 ++ l2) = sum l1 + sum l2.
Proof.
  induction l1 as [|x l1 IH]; simpl.
  - reflexivity.
  - rewrite !sum_cons, IH. lia.
Qed.

Lemma cumsum_from_length (l : list Z) (a : Z) :
  List.length (cumsum_from a l) = List.length l.
Proof. revert a. induction l; simpl; intros; [|rewrite IHl]; reflexivity. Qed.

(** Entry [i] of the running sums that start at [a]. *)
Lemma cumsum_from_nth (l : list Z) (a : Z) (i : nat) :
  (i < List.length l)%nat ->
  nth_error (cumsum_from a l) i = Some (a + sum (firstn (S i) l)).
Proof.
  revert a i. induction l as [|x l IH]; intros a i Hi; [simpl in Hi; lia|].
  simpl in Hi. rewrite firstn_cons, sum_cons.
  destruct i as [|i]; simpl nth_error.
  - rewrite firstn_0. f_equal. unfold sum. simpl. lia.
  - rewrite IH by lia. f_equal. lia.
Qed.

(** [np.cumsum([0] + ns)[i]] is the sum of the first [i] entries of [ns]. *)
Lemma accum_nth (ns : list Z) (i : nat) :
  (i <= List.length ns)%nat ->
  nth_error (cumsum (0 :: ns)) i = Some (sum (firstn i ns)).
Proof.
  intros Hi. unfold cumsum. rewrite cumsum_from_nth by (simpl; lia).
  simpl firstn. rewrite sum_cons. reflexivity.
Qed.

Lemma accum_length (ns : list Z) :
  List.length (cumsum (0 :: ns)) = S (List.length ns).
Proof. unfold cumsum. rewrite cumsum_from_length. reflexivity. Qed.

(** Its last entry is the sum of all of [ns]. *)
Lemma accum_last (ns : list Z) :
  py_getitem (cumsum (0 :: ns)) (-1) = Ok (sum ns).
Proof.
  pose proof (accum_nth ns (List.length ns) (Nat.le_refl _)) as Hn.
  rewrite firstn_all in Hn.
  pose proof (accum_length ns) as Hl.
  destruct (nth_error_split _ _ Hn) as (l1 & l2 & Heq & Hlen).
  assert (l2 = []) as ->.
  { apply (f_equal (@List.length Z)) in Heq.
    rewrite Hl, length_app in Heq.
    destruct l2; [reflexivity | simpl List.length in Heq; lia]. }
  rewrite Heq. apply py_getitem_last.
Qed.

(** ** Slices of a flat parameter vector *)

Section Slices.

Context {A : Type}.

Lemma py_slice_inside (l : list A) (lo hi : Z) :
  0 <= lo -> lo <= hi -> hi <= len l ->
  py_slice l lo hi = firstn (Z.to_nat (hi - lo)) (skipn (Z.to_nat lo) l).
Proof.
  intros H0 Hlh Hhl. unfold py_slice.
  destruct (Z.ltb_spec hi 0); [lia|].
  destruct (Z.ltb_spec lo 0); [lia|].
  rewrite !Z.min_l by lia. reflexivity.
Qed.

Lemma py_slice_all (l : list A) : py_slice l 0 (len l) = l.
Proof.
  rewrite py_slice_inside by (pose proof (len_nonneg l); lia).
  rewrite Z.sub_0_r. unfold len. rewrite Nat2Z.id. simpl skipn.
  apply firstn_all.
Qed.

Lemma py_slice_length (l : list A) (lo hi : Z) :
  0 <= lo -> lo <= hi -> hi <= len l -> len (py_slice l lo hi) = hi - lo.
Proof.
  intros H0 Hlh Hhl. rewrite py_slice_inside by assumption.
  unfold len in *. rewrite length_firstn, length_skipn. lia.
Qed.

Lemma firstn_plus (l : list A) (x y : nat) :
  firstn (x + y) l = firstn x l ++ firstn y (skipn x l).
Proof.
  revert l. induction x as [|x IH]; intros l; [reflexivity|].
  destruct l as [|a l]; simpl.
  - rewrite firstn_nil. reflexivity.
  - rewrite IH. reflexivity.
Qed.

(** Two adjacent slices make one. *)
Lemma py_slice_app (l : list A) (lo mid hi : Z) :
  0 <= lo -> lo <= mid -> mid <= hi -> hi <= len l ->
  py_slice l lo mid ++ py_slice l mid hi = py_slice l lo hi.
Proof.
  intros H0 H1 H2 H3. rewrite !py_slice_inside by lia.
  replace (Z.to_nat (hi - lo)) with (Z.to_nat (mid - lo) + Z.to_nat (hi - mid))%nat by lia.
  rewrite firstn_plus, skipn_skipn.
  replace (Z.to_nat (mid - lo) + Z.to_nat lo)%nat with (Z.to_nat mid) by lia.
  reflexivity.
Qed.

Lemma sum_nonneg (ns : list Z) : Forall (fun n => 0 <= n) ns -> 0 <= sum ns.
Proof.
  induction 1 as [|n ns Hn _ IH]; [reflexivity|]. rewrite sum_cons. lia.
Qed.

Lemma sum_firstn_bounds (ns : list Z) (k : nat) :
  Forall (fun n => 0 <= n) ns -> 0 <= sum (firstn k ns) <= sum ns.
Proof.
  intros H. rewrite <- (firstn_skipn k ns) in H.
  apply Forall_app in H as (H1 & H2).
  apply sum_nonneg in H1, H2.
  rewrite <- (firstn_skipn k ns) at 3. rewrite sum_app. lia.
Qed.

Lemma sum_firstn_S (ns : list Z) (k : nat) (n : Z) :
  nth_error ns k = Some n -> sum (firstn (S k) ns) = sum (firstn k ns) + n.
Proof.
  revert k. induction ns as [|m ns IH]; intros [|k] H; try discriminate.
  - injection H as ->. rewrite firstn_cons, !firstn_0. unfold sum. simpl. lia.
  - simpl in H. rewrite !firstn_cons, !sum_cons, (IH _ H). lia.
Qed.

(** Pieces that are the consecutive slices of [P] cut at the running sums
    of [ns] concatenate to [P]. *)
Lemma slices_concat (P : list A) (ns : list Z) (pieces : list (list A)) (off : Z) :
  Forall (fun n => 0 <= n) ns ->
  List.length pieces = List.length ns ->
  (forall k piece, nth_error pieces k = Some piece ->
     piece = py_slice P (off + sum (firstn k ns)) (off + sum (firstn (S k) ns))) ->
  0 <= off -> off + sum ns <= len P ->
  List.concat pieces = py_slice P off (off + sum ns).
Proof.
  revert pieces off. induction ns as [|n ns IH]; intros pieces off Hnn Hlen Hp Hoff Hle.
  - destruct pieces; [|discriminate]. simpl.
    rewrite py_slice_inside by (unfold sum in *; simpl in *; lia).
    unfold sum. simpl. replace (off + 0 - off) with 0 by lia. reflexivity.
  - destruct pieces as [|p pieces]; [discriminate|].
    inversion Hnn as [|? ? Hn Hnn']; subst.
    pose proof (sum_nonneg ns Hnn') as Hs.
    rewrite sum_cons in Hle |- *.
    cbn [List.concat].
    rewrite (Hp 0%nat p eq_refl). simpl firstn.
    rewrite (IH pieces (off + n)); try lia.
    + replace (off + sum []) with off by (unfold sum; simpl; lia).
      replace (off + sum [n]) with (off + n) by (unfold sum; simpl; lia).
      replace (off + n + sum ns) with (off + (n + sum ns)) by lia.
      apply py_slice_app; lia.
    + exact Hnn'.
    + simpl in Hlen. lia.
    + intros k piece Hk. rewrite (Hp (S k) piece Hk).
      rewrite !firstn_cons, !sum_cons. f_equal; lia.
Qed.

End Slices.

(** ** Construction *)

Section Construction.

Context {V C State : Type} `{PO : PyObject V State} `{SC : Scalar V C} {K R : Type}.

Local Abbreviation node := (node V C K R).

(** What [__init__] returns when it returns. *)
Lemma init_ok (cls : rate_class) (l : list (arg V node))
    (hard : option (list (K * C))) (r : R) (self : node) :
  __init__ cls l hard r = Ok self ->
  self = Node cls (len l) l hard r (_get_nscalars l) (cumsum (0 :: _get_nscalars l))
  /\ class_nargs cls <> 0
  /\ (class_nargs cls = -1 \/ class_nargs cls = len l).
Proof.
  unfold __init__.
  destruct (Z.eqb_spec (class_nargs cls) 0) as [|Hn0]; [discriminate|].
  destruct (Z.eqb_spec (class_nargs cls) (-1)) as [Hv|Hf].
  - rewrite Z.eqb_refl. simpl. intros [= <-]. auto.
  - destruct (Z.eqb_spec (len l) (class_nargs cls)) as [Hl|]; [|discriminate].
    simpl. intros [= <-]. rewrite Hl. auto.
Qed.

(** [__init__] fails only on the arity of the class. *)
Lemma init_succeeds (cls : rate_class) (l : list (arg V node))
    (hard : option (list (K * C))) (r : R) :
  class_nargs cls <> 0 ->
  class_nargs cls = -1 \/ class_nargs cls = len l ->
  __init__ cls l hard r =
  Ok (Node cls (len l) l hard r (_get_nscalars l) (cumsum (0 :: _get_nscalars l))).
Proof.
  intros Hn0 Har. unfold __init__.
  destruct (Z.eqb_spec (class_nargs cls) 0) as [|_]; [contradiction|].
  destruct (Z.eqb_spec (class_nargs cls) (-1)) as [Hv|Hf].
  - rewrite Z.eqb_refl. reflexivity.
  - destruct Har as [|Har]; [contradiction|].
    rewrite <- Har, Z.eqb_refl. reflexivity.
Qed.

Lemma constructed_inv (self : node) :
  constructed self ->
  (forall e, In (Expr e) (args self) -> constructed e)
  /\ __init__ (__class__ self) (args self) (hard_args self) (ref self) = Ok self.
Proof.
  intros [cls l hard r self' Hch Hinit].
  destruct (init_ok _ _ _ _ _ Hinit) as (-> & _ & _).
  simpl. auto.
Qed.

Lemma constructed_fields (self : node) :
  constructed self ->
  nargs self = len (args self)
  /\ _nscalars self = _get_nscalars (args self)
  /\ _accum_nscalars self = cumsum (0 :: _get_nscalars (args self)).
Proof.
  intros H. apply constructed_inv in H as (_ & H).
  apply init_ok in H as (Heq & _).
  rewrite Heq at 1 3 5. simpl. auto.
Qed.

Lemma get_params_unfold (self : node) :
  get_params self =
  flat_map (fun a => match a with
                     | Expr e => get_params e
                     | Leaf v => [v]
                     end) (args self).
Proof. destruct self; reflexivity. Qed.

(** The scalar counts of a node add up to the number of scalars that
    [get_params] collects. *)
Lemma nscalars_get_params (self : node) :
  constructed self -> sum (_nscalars self) = len (get_params self).
Proof.
  induction 1 as [cls l hard r self Hch IH Hinit].
  apply init_ok in Hinit as (-> & _).
  rewrite get_params_unfold. simpl.
  clear Hch. induction l as [|a l IHl]; [reflexivity|].
  simpl. rewrite sum_cons, len_app, IHl.
  - destruct a as [v|e]; [reflexivity|].
    rewrite IH by (left; reflexivity). reflexivity.
  - intros e He. apply IH. right. exact He.
Qed.

End Construction.

(** ** Rebuilding *)

Section Rebuild.

Context {V C State : Type} `{PO : PyObject V State} `{SC : Scalar V C} {K R : Type}.

Local Abbreviation node := (node V C K R).

Lemma rebuild_unfold (self : node) (params : option (list V)) :
  rebuild self params =
  (args' <- enum_mapM (rebuild_arg self params) 0 (args self) ;;
   __init__ (__class__ self) args' (hard_args self) (ref self)).
Proof. destruct self; reflexivity. Qed.

Lemma enum_mapM_same {A : Type} (f : Z -> A -> result A) (l : list A) (i : Z) :
  (forall j a, In a l -> f j a = Ok a) -> enum_mapM f i l = Ok l.
Proof.
  revert i. induction l as [|a l IH]; intros i Hf; [reflexivity|].
  simpl. rewrite Hf by (left; reflexivity). simpl.
  rewrite IH by (intros; apply Hf; right; assumption). reflexivity.
Qed.

(** Item [k] of the output of an enumerating loop is the body run on
    item [k] of the input, at index [i + k]. *)
Lemma enum_mapM_nth {A B : Type} (f : Z -> A -> result B)
    (l : list A) (i : Z) (bs : list B) :
  enum_mapM f i l = Ok bs ->
  List.length bs = List.length l
  /\ forall k a, nth_error l k = Some a ->
       exists b, nth_error bs k = Some b /\ f (i + Z.of_nat k) a = Ok b.
Proof.
  revert i bs. induction l as [|a l IH]; intros i bs H; simpl in H.
  - injection H as <-. split; [reflexivity|]. intros [|k] a H; discriminate.
  - apply bind_ok in H as (b & Hb & H).
    apply bind_ok in H as (bs' & Hbs & H). injection H as <-.
    destruct (IH _ _ Hbs) as (Hlen & Hnth).
    split; [simpl; congruence|].
    intros [|k] a' Ha; simpl in Ha.
    + injection Ha as <-. exists b. rewrite Z.add_0_r. auto.
    + destruct (Hnth _ _ Ha) as (b' & Hb' & Hf).
      exists b'. split; [exact Hb'|].
      rewrite <- Hf. f_equal. lia.
Qed.

(** Rebuilding without parameters returns an equal tree. *)
Lemma rebuild_None (self : node) :
  constructed self -> rebuild self None = Ok self.
Proof.
  induction 1 as [cls l hard r self Hch IH Hinit].
  pose proof Hinit as Hself. apply init_ok in Hself as (Hself & _).
  rewrite rebuild_unfold.
  assert (args self = l /\ __class__ self = cls
          /\ hard_args self = hard /\ ref self = r) as (-> & -> & -> & ->)
    by (rewrite Hself; simpl; auto).
  rewrite enum_mapM_same; [exact Hinit|].
  intros j [v|e] Ha; simpl; [reflexivity|].
  rewrite IH by exact Ha. reflexivity.
Qed.

Lemma rebuild_arg_rebuilt (self : node) (params : option (list V))
    (i : Z) (a b : arg V node) :
  rebuild_arg self params i a = Ok b -> rebuilt_arg a b.
Proof.
  destruct a as [v|e]; simpl.
  - destruct params as [ps|].
    + destruct (negb (len ps =? 1)); [discriminate|].
      intros H. apply bind_ok in H as (p0 & _ & [= <-]). exact I.
    + intros [= <-]. exact I.
  - intros H. apply bind_ok in H as (p & _ & H).
    apply bind_ok in H as (e' & He' & [= <-]). simpl. eauto.
Qed.

Lemma rebuild_args_Forall2 (self : node) (params : option (list V))
    (l l' : list (arg V node)) (i : Z) :
  enum_mapM (rebuild_arg self params) i l = Ok l' ->
  Forall2 rebuilt_arg l l'.
Proof.
  revert i l'. induction l as [|a l IH]; intros i l' H; simpl in H.
  - injection H as <-. constructor.
  - apply bind_ok in H as (b & Hb & H).
    apply bind_ok in H as (bs & Hbs & [= <-]).
    constructor; [eapply rebuild_arg_rebuilt; eassumption | eapply IH; eassumption].
Qed.

Lemma shape_unfold (self : node) :
  shape self =
  Shape (__class__ self) (nargs self) (hard_args self) (ref self)
    (_nscalars self) (_accum_nscalars self)
    (map (fun a => match a with
                   | Expr e => Some (shape e)
                   | Leaf _ => None
                   end) (args self)).
Proof. destruct self; reflexivity. Qed.

Lemma shape_nscalars (e e' : node) : shape e' = shape e -> _nscalars e' = _nscalars e.
Proof. rewrite !shape_unfold. congruence. Qed.

(** [rebuild] returns a constructed tree of the shape of its receiver. *)
Lemma rebuild_shape (self : node) :
  constructed self ->
  forall params self', rebuild self params = Ok self' ->
  shape self' = shape self /\ constructed self'.
Proof.
  induction 1 as [cls l hard r self Hch IH Hinit].
  intros params self' H.
  apply init_ok in Hinit as (Hself & Hn0 & Har).
  rewrite rebuild_unfold in H.
  assert (args self = l /\ __class__ self = cls
          /\ hard_args self = hard /\ ref self = r) as (El & Ec & Eh & Er)
    by (rewrite Hself; simpl; auto).
  rewrite El, Ec, Eh, Er in H.
  apply bind_ok in H as (l' & Hl' & Hinit').
  apply rebuild_args_Forall2 in Hl'.
  assert (Forall2 (fun a b =>
            match a, b with
            | Leaf _, Leaf _ => True
            | Expr e, Expr e' => shape e' = shape e /\ constructed e'
            | _, _ => False
            end) l l') as HF.
  { clear Hself El Har Hinit' Hch. induction Hl' as [|a b l l' Hab _ IHF]; constructor.
    - destruct a as [v|e], b as [v'|e']; simpl in Hab; try contradiction; [exact I|].
      destruct Hab as (p & Hp). eapply IH; [left; reflexivity | exact Hp].
    - apply IHF. intros e He. apply IH. right. exact He. }
  assert (List.length l' = List.length l
          /\ _get_nscalars l' = _get_nscalars l
          /\ map (fun a => match a with
                           | Expr e => Some (shape e)
                           | Leaf _ => None
                           end) l'
             = map (fun a : arg V node => match a with
                           | Expr e => Some (shape e)
                           | Leaf _ => None
                           end) l
          /\ forall e, In (Expr e) l' -> constructed e) as (Hlen & Hns & Hsh & Hc).
  { clear -HF. unfold _get_nscalars.
    induction HF as [|a b l l' Hab _ IHF]; [simpl; intuition|].
    destruct IHF as (Hlen & Hns & Hsh & Hc).
    cbn [map List.length]. rewrite Hlen, Hns, Hsh.
    destruct a as [v|e], b as [v'|e']; simpl in Hab; try contradiction.
    - repeat split; try reflexivity.
      intros e [He|He]; [discriminate | auto].
    - destruct Hab as (Hs & Hce).
      rewrite (shape_nscalars _ _ Hs), Hs.
      repeat split; try reflexivity.
      intros e0 [He|He]; [injection He as <-; exact Hce | auto]. }
  split.
  - apply init_ok in Hinit' as (-> & _).
    rewrite Hself, !shape_unfold. simpl.
    unfold len. rewrite Hlen, Hns, Hsh. reflexivity.
  - econstructor; eassumption.
Qed.

End Rebuild.

(** ** Evaluation *)

Section Evaluation.

Context {V C State : Type} `{PO : PyObject V State} `{SC : Scalar V C} {K R : Type}.

Local Abbreviation node := (node V C K R).
Local Abbreviation ReactionSystem := (ReactionSystem V C K).

Lemma mapM_ext {A B : Type} (f g : A -> result B) (l : list A) :
  (forall a, f a = g a) -> mapM f l = mapM g l.
Proof.
  intros H. induction l as [|a l IH]; simpl; [reflexivity|].
  rewrite H, IH. reflexivity.
Qed.

Lemma eval_formula_ext (self : node)
    (ea1 ea2 : Z -> option (list V) -> result V)
    (rsys : ReactionSystem) (ri : Z) (concs : list V) (params : option (list V)) :
  (forall i p, ea1 i p = ea2 i p) ->
  eval_formula self ea1 rsys ri concs params =
  eval_formula self ea2 rsys ri concs params.
Proof.
  intros H. unfold eval_formula.
  destruct (__class__ self); rewrite ?H; try reflexivity.
  rewrite (mapM_ext _ (fun idx => ea2 idx params)) by (intros; apply H).
  reflexivity.
Qed.

(** [eval] is the formula of the class of the node over [eval_arg]. *)
Lemma eval_unfold (self : node) (rsys : ReactionSystem) (ri : Z)
    (concs : list V) (params : option (list V)) :
  eval self rsys ri concs params =
  eval_formula self (eval_arg self rsys ri concs) rsys ri concs params.
Proof.
  destruct self as [cls n l hard r ns acc].
  cbn [eval]. apply eval_formula_ext. intros i p.
  unfold eval_arg_with, eval_arg. cbn [args].
  rewrite py_getitem_map.
  destruct (py_getitem l i) as [[v|e]|ex]; reflexivity.
Qed.

(** [Sum.eval] on a node of no argument and on a node of one argument. *)
Lemma eval_Sum_0 (self : node) (rsys : ReactionSystem) (ri : Z)
    (concs : list V) (params : option (list V)) :
  __class__ self = Sum -> nargs self = 0 ->
  eval self rsys ri concs params = Raise TypeError.
Proof.
  intros Hc Hn. rewrite eval_unfold. unfold eval_formula.
  rewrite Hc, Hn. reflexivity.
Qed.

Lemma eval_Sum_1 (self : node) (rsys : ReactionSystem) (ri : Z)
    (concs : list V) (params : option (list V)) :
  __class__ self = Sum -> nargs self = 1 ->
  eval self rsys ri concs params = eval_arg self rsys ri concs 0 params.
Proof.
  intros Hc Hn. rewrite eval_unfold. unfold eval_formula.
  rewrite Hc, Hn. change (range 1) with [0]. cbn [mapM].
  destruct (eval_arg self rsys ri concs 0 params); reflexivity.
Qed.

(** The override of a nested argument is the slice of [params] between two
    consecutive entries of [_accum_nscalars]. *)
Lemma eval_arg_nested (self e : node) (rsys : ReactionSystem) (ri : Z)
    (concs : list V) (i : Z) :
  py_getitem (args self) i = Ok (Expr e) ->
  eval_arg self rsys ri concs i None = eval e rsys ri concs None
  /\ forall ps lo hi,
       py_getitem (_accum_nscalars self) i = Ok lo ->
       py_getitem (_accum_nscalars self) (i + 1) = Ok hi ->
       eval_arg self rsys ri concs i (Some ps) =
       eval e rsys ri concs (Some (py_slice ps lo hi)).
Proof.
  intros Ha. unfold eval_arg. rewrite Ha. split; [reflexivity|].
  intros ps lo hi Hlo Hhi. simpl. rewrite Hlo, Hhi. reflexivity.
Qed.

(** On a scalar leaf [eval_arg] looks at the whole of [params], and never
    at the slice of the leaf. *)
Lemma eval_arg_leaf (self : node) (v : V) (rsys : ReactionSystem) (ri : Z)
    (concs : list V) (i : Z) :
  py_getitem (args self) i = Ok (Leaf v) ->
  eval_arg self rsys ri concs i None = Ok v
  /\ (forall p, eval_arg self rsys ri concs i (Some [p]) = Ok p)
  /\ (forall ps, len ps <> 1 ->
        eval_arg self rsys ri concs i (Some ps) =
        Raise (ValueError "Incorrect length of params")).
Proof.
  intros Ha. unfold eval_arg. rewrite Ha. simpl.
  split; [reflexivity|]. split.
  - intros p. apply py_getitem_head.
  - intros ps Hps. destruct (Z.eqb_spec (len ps) 1); [contradiction | reflexivity].
Qed.

End Evaluation.

(** ** The law of mass action *)

Section MassActionLaw.

Context {V C State : Type} `{PO : PyObject V State} `{SC : Scalar V C} {K : Type}.

Local Abbreviation ReactionSystem := (ReactionSystem V C K).
Local Abbreviation Reaction := (Reaction V C K).

(** The powers of the tree classes are those of the specification. *)
Lemma factors_spec_power (conc : list V) (rsys : ReactionSystem) (l : list (K * C)) :
  factors conc rsys l = mapM (spec_power conc rsys) l.
Proof.
  unfold factors. apply mapM_ext. intros [key coeff]. reflexivity.
Qed.

(** When every power of [reac] is defined, the inner loop multiplies them
    onto [rate] one after the other. *)
Lemma loop_factors_ok (conc : list V) (rsys : ReactionSystem)
    (l : list (K * C)) (rate : V) (fs : list V) :
  factors conc rsys l = Ok fs ->
  foldM (fun rate '(substance_key, coeff) =>
           s_idx <- as_substance_index rsys substance_key ;;
           c <- py_getitem conc s_idx ;;
           p <- pow c coeff ;;
           mul rate p) l rate
  = foldM mul fs rate.
Proof.
  revert rate fs. induction l as [|[key coeff] l IH]; intros rate fs H.
  - injection H as <-. reflexivity.
  - unfold factors in *. cbn [mapM foldM] in *.
    destruct (as_substance_index rsys key) as [s_idx|e]; [|discriminate].
    cbn [bind] in *. destruct (py_getitem conc s_idx) as [c|e]; [|discriminate].
    cbn [bind] in *. destruct (pow c coeff) as [p|e]; [|discriminate].
    cbn [bind] in *. destruct (mapM _ l) as [ps|e] eqn:Eps; [|discriminate].
    injection H as <-. cbn [foldM].
    destruct (mul rate p) as [rate'|e]; [|reflexivity].
    cbn [bind]. apply IH. reflexivity.
Qed.

(** When a power of [reac] is not defined, the inner loop raises. *)
Lemma loop_factors_raise (conc : list V) (rsys : ReactionSystem)
    (l : list (K * C)) (rate : V) (e : exn) :
  factors conc rsys l = Raise e ->
  exists e',
    foldM (fun rate '(substance_key, coeff) =>
             s_idx <- as_substance_index rsys substance_key ;;
             c <- py_getitem conc s_idx ;;
             p <- pow c coeff ;;
             mul rate p) l rate
    = Raise e'
    /\ ((forall x y : V, is_ok (mul x y) = true) -> e' = e).
Proof.
  revert rate. induction l as [|[key coeff] l IH]; intros rate H; [discriminate|].
  unfold factors in *. cbn [mapM foldM] in *.
  destruct (as_substance_index rsys key) as [s_idx|e0];
    [|injection H as <-; eexists; split; reflexivity].
  cbn [bind] in *. destruct (py_getitem conc s_idx) as [c|e0];
    [|injection H as <-; eexists; split; reflexivity].
  cbn [bind] in *. destruct (pow c coeff) as [p|e0];
    [|injection H as <-; eexists; split; reflexivity].
  cbn [bind] in *.
  destruct (mul rate p) as [rate'|e0] eqn:Em.
  - cbn [bind]. apply IH.
    destruct (mapM _ l); [discriminate | exact H].
  - exists e0. split; [reflexivity|].
    intros Htot. specialize (Htot rate p). rewrite Em in Htot. discriminate.
Qed.

Lemma spec_resolve_eval_k (k : V) (state : State) :
  spec_resolve k state = _eval_k k state.
Proof.
  unfold spec_resolve, _eval_k.
  destruct (callable k), (class_name k =? "Symbol")%string; reflexivity.
Qed.

(** The body of the generator's loop returns the rate of the
    specification whenever one of the two returns. *)
Lemma rate_of_returned (conc : list V) (rsys : ReactionSystem)
    (params : option (list V)) (state : State) (i : Z) (rxn : Reaction) :
  returned (rate_of conc rsys params state i rxn)
  = returned (spec_rate conc rsys params state i rxn).
Proof.
  unfold rate_of, spec_rate, rate_loop.
  rewrite <- factors_spec_power.
  destruct (factors conc rsys (reac rxn)) as [fs|e] eqn:Ef.
  - rewrite (loop_factors_ok _ _ _ _ _ Ef).
    destruct params as [ps|]; cbn [bind].
    + destruct (py_getitem ps i) as [k|e]; cbn [bind].
      * destruct (foldM mul fs one); cbn [bind];
          [rewrite spec_resolve_eval_k|]; reflexivity.
      * destruct (foldM mul fs one); reflexivity.
    + destruct (foldM mul fs one); cbn [bind];
        [rewrite spec_resolve_eval_k|]; reflexivity.
  - destruct (loop_factors_raise _ _ _ one _ Ef) as (e' & -> & _).
    destruct params as [ps|]; cbn [bind]; [|reflexivity].
    destruct (py_getitem ps i); reflexivity.
Qed.

Lemma rate_of_spec_ok (conc : list V) (rsys : ReactionSystem)
    (params : option (list V)) (state : State) (i : Z) (rxn : Reaction) :
  is_ok (rate_of conc rsys params state i rxn)
  = is_ok (spec_rate conc rsys params state i rxn).
Proof.
  pose proof (rate_of_returned conc rsys params state i rxn) as H.
  destruct (rate_of _ _ _ _ _ _), (spec_rate _ _ _ _ _ _); simpl in *;
    congruence.
Qed.

(** The generator is the run of its loop body over the reactions. *)
Lemma rates_from_yield_all (conc : list V) (rsys : ReactionSystem)
    (params : option (list V)) (state : State) (i : Z) (l : list Reaction) :
  rates_from conc rsys params state i l =
  yield_all (map (fun '(j, rxn) => rate_of conc rsys params state j rxn)
                 (enumerate_from i l)).
Proof.
  revert i. induction l as [|rxn l IH]; intros i; [reflexivity|].
  cbn [rates_from enumerate_from map yield_all].
  rewrite IH. reflexivity.
Qed.

(** The values the generator yields are the rates of the specification,
    up to the first that is not defined. *)
Lemma rates_from_spec (conc : list V) (rsys : ReactionSystem)
    (params : option (list V)) (state : State) (i : Z) (l : list Reaction) :
  yielded (rates_from conc rsys params state i l) =
  ok_prefix (map (fun '(j, rxn) => spec_rate conc rsys params state j rxn)
                 (enumerate_from i l)).
Proof.
  revert i. induction l as [|rxn l IH]; intros i; [reflexivity|].
  cbn [rates_from enumerate_from map].
  pose proof (rate_of_returned conc rsys params state i rxn) as H.
  destruct (rate_of conc rsys params state i rxn) as [v|e],
           (spec_rate conc rsys params state i rxn) as [v'|e'];
    simpl in H; try discriminate; [|reflexivity].
  injection H as <-. cbn [yielded ok_prefix]. rewrite IH. reflexivity.
Qed.

(** The generator ends without exception exactly when the rate of every
    reaction is defined. *)
Lemma rates_from_raised (conc : list V) (rsys : ReactionSystem)
    (params : option (list V)) (state : State) (i : Z) (l : list Reaction) :
  raised (rates_from conc rsys params state i l) = None
  <-> (forall j rxn, In (j, rxn) (enumerate_from i l) ->
         is_ok (spec_rate conc rsys params state j rxn) = true).
Proof.
  revert i. induction l as [|rxn l IH]; intros i.
  - split; [intros _ j rxn [] | reflexivity].
  - cbn [rates_from enumerate_from].
    pose proof (rate_of_spec_ok conc rsys params state i rxn) as Hok.
    destruct (rate_of conc rsys params state i rxn) as [v|e]; cbn [raised is_ok] in *.
    + rewrite IH. split.
      * intros H j rxn0 [[= <- <-]|Hin]; [symmetry; exact Hok | apply H; exact Hin].
      * intros H j rxn0 Hin. apply H. right. exact Hin.
    + split; [discriminate|].
      intros H. specialize (H i rxn (or_introl eq_refl)). congruence.
Qed.

Lemma ok_prefix_all {A : Type} (l : list (result A)) :
  (forall r, In r l -> is_ok r = true) -> map Ok (ok_prefix l) = l.
Proof.
  induction l as [|[a|e] l IH]; intros H; [reflexivity| |].
  - cbn [ok_prefix map]. rewrite IH; [reflexivity|].
    intros r Hr. apply H. right. exact Hr.
  - specialize (H (Raise e) (or_introl eq_refl)). discriminate.
Qed.

End MassActionLaw.

(** ** Round trip of a flat parameter vector *)

Section RoundTrip.

Context {V C State : Type} `{PO : PyObject V State} `{SC : Scalar V C} {K R : Type}.

Local Abbreviation node := (node V C K R).

Lemma get_nscalars_nonneg (l : list (arg V node)) :
  (forall e, In (Expr e) l -> constructed e) ->
  Forall (fun n => 0 <= n) (_get_nscalars l).
Proof.
  induction l as [|a l IH]; intros H; constructor.
  - destruct a as [v|e]; [lia|].
    rewrite nscalars_get_params by (apply H; left; reflexivity).
    apply len_nonneg.
  - apply IH. intros e He. apply H. right. exact He.
Qed.

(** The slice [_sub_params] cuts for argument [k]. *)
Lemma sub_params_nat (self : node) (k : nat) (P : list V) :
  constructed self -> (k < List.length (args self))%nat ->
  _sub_params self (Z.of_nat k) (Some P) =
  Ok (Some (py_slice P (sum (firstn k (_nscalars self)))
                       (sum (firstn (S k) (_nscalars self))))).
Proof.
  intros Hc Hk.
  destruct (constructed_fields self Hc) as (_ & Hns & Hacc).
  assert (List.length (_nscalars self) = List.length (args self)) as Hlen
    by (rewrite Hns; apply length_map).
  unfold _sub_params. rewrite Hacc, <- Hns.
  rewrite (py_getitem_ok_nat _ k (sum (firstn k (_nscalars self))))
    by (apply accum_nth; lia).
  replace (Z.of_nat k + 1) with (Z.of_nat (S k)) by lia.
  rewrite (py_getitem_ok_nat _ (S k) (sum (firstn (S k) (_nscalars self))))
    by (apply accum_nth; lia).
  reflexivity.
Qed.

(** Whenever [rebuild] returns on a vector of the length the tree counts,
    the rebuilt tree flattens to that vector. *)
Lemma rebuild_get_params (self : node) :
  constructed self ->
  forall P self',
    len P = sum (_nscalars self) ->
    rebuild self (Some P) = Ok self' ->
    get_params self' = P.
Proof.
  induction 1 as [cls l hard r self Hch IH Hinit].
  intros P self' HP H.
  assert (constructed self) as Hc by (econstructor; eassumption).
  apply init_ok in Hinit as (Hself & _).
  assert (args self = l /\ _nscalars self = _get_nscalars l) as (El & Ens)
    by (rewrite Hself; simpl; auto).
  rewrite rebuild_unfold, El in H.
  apply bind_ok in H as (l' & Hl' & Hinit').
  apply init_ok in Hinit' as (-> & _).
  rewrite get_params_unfold. cbn [args]. rewrite flat_map_concat_map.
  apply enum_mapM_nth in Hl' as (Hlen & Hnth).
  pose proof (get_nscalars_nonneg l Hch) as Hnn.
  rewrite Ens in HP.
  rewrite (slices_concat P (_get_nscalars l) _ 0 Hnn);
    [rewrite Z.add_0_l, <- HP; apply py_slice_all
    | rewrite length_map, Hlen; symmetry; apply length_map
    | | lia | lia].
  intros k piece Hk. rewrite !Z.add_0_l.
  rewrite nth_error_map in Hk.
  destruct (nth_error l' k) as [b|] eqn:Eb; [|discriminate].
  injection Hk as <-.
  assert (k < List.length l)%nat as Hkl
    by (rewrite <- Hlen; apply nth_error_Some; congruence).
  destruct (nth_error l k) as [a|] eqn:Ea;
    [|apply nth_error_None in Ea; lia].
  destruct (Hnth k a Ea) as (b' & Eb' & Hf).
  rewrite Eb in Eb'. injection Eb' as <-. rewrite Z.add_0_l in Hf.
  assert (nth_error (_get_nscalars l) k
          = Some (match a with Expr e => sum (_nscalars e) | Leaf _ => 1 end)) as Hn
    by (unfold _get_nscalars; rewrite nth_error_map, Ea; reflexivity).
  pose proof (sum_firstn_S _ _ _ Hn) as HS.
  pose proof (sum_firstn_bounds (_get_nscalars l) k Hnn) as Hlo.
  pose proof (sum_firstn_bounds (_get_nscalars l) (S k) Hnn) as Hhi.
  destruct a as [v|e]; cbn [rebuild_arg] in Hf.
  - destruct (Z.eqb_spec (len P) 1) as [HP1|]; [|discriminate].
    cbn [negb] in Hf. apply bind_ok in Hf as (p0 & Hp0 & [= <-]).
    destruct P as [|p [|q P]];
      [discriminate HP1 | | exfalso; rewrite !len_cons in HP1; pose proof (len_nonneg P); lia].
    rewrite py_getitem_head in Hp0. injection Hp0 as <-.
    replace (sum (firstn k (_get_nscalars l))) with 0 in * by lia.
    rewrite HS. reflexivity.
  - apply bind_ok in Hf as (p & Hp & Hf).
    apply bind_ok in Hf as (e' & He' & [= <-]).
    rewrite <- El in Hkl. rewrite (sub_params_nat self k P Hc Hkl), Ens in Hp.
    injection Hp as <-.
    apply (IH e (nth_error_In _ _ Ea)); [|exact He'].
    assert (0 <= sum (_nscalars e)) as He0.
    { rewrite nscalars_get_params by (apply Hch; eapply nth_error_In; exact Ea).
      apply len_nonneg. }
    rewrite py_slice_length; lia.
Qed.

End RoundTrip.


Section StoreFacts.

Context {V C State : Type} `{PO : PyObject V State} `{SC : Scalar V C} {K R : Type}.

Local Abbreviation node := (node V C K R).
Local Abbreviation store := (store V C K R).
Local Abbreviation object := (object V C K R).

(** Objects are never modified, so a tree represented in a store is
    represented in every extension of it. *)
Lemma repr_mono (s s' : store) (a : addr) (T : node) :
  repr s a T -> repr (s ++ s') a T.
Proof.
  revert a T.
  apply (repr_mut V C K R s
           (fun a T => repr (s ++ s') a T)
           (fun oas tas => repr_args (s ++ s') oas tas)).
  - intros a o T Hn Hc Hna Hh Hr Hns Hacc _ IH.
    apply (repr_object _ a o T); try assumption.
    rewrite nth_error_app1; [exact Hn|].
    apply nth_error_Some. congruence.
  - constructor.
  - intros v oas tas _ IH. constructor. exact IH.
  - intros a e oas tas _ IHe _ IH. constructor; assumption.
Qed.

Lemma repr_args_mono (s s' : store) (oas : list (arg V addr))
    (tas : list (arg V node)) :
  repr_args s oas tas -> repr_args (s ++ s') oas tas.
Proof.
  induction 1; constructor; try assumption. apply repr_mono. assumption.
Qed.

Lemma repr_args_length (s : store) (oas : list (arg V addr))
    (tas : list (arg V node)) :
  repr_args s oas tas -> List.length oas = List.length tas.
Proof. induction 1; simpl; congruence. Qed.

(** The scalar counts read through the store are those of the trees. *)
Lemma repr_args_get_nscalars (s : store) (oas : list (arg V addr))
    (tas : list (arg V node)) :
  repr_args s oas tas -> store_get_nscalars s oas = Ok (_get_nscalars tas).
Proof.
  unfold store_get_nscalars, _get_nscalars.
  induction 1 as [|v oas tas _ IH|a e oas tas Hr _ IH]; cbn [mapM map].
  - reflexivity.
  - rewrite IH. reflexivity.
  - inversion Hr as [a0 o T Hn _ _ _ _ Hns _ _]; subst.
    rewrite IH. unfold deref. rewrite Hn. cbn [bind]. rewrite Hns. reflexivity.
Qed.

Lemma store_init_simulates (cls : rate_class) (oas : list (arg V addr))
    (l : list (arg V node)) (hard : option (list (K * C))) (r : R) (s : store) :
  repr_args s oas l ->
  simulates s (store_init cls oas hard r s) (__init__ cls l hard r).
Proof.
  intros Hargs. unfold simulates, store_init, __init__.
  assert (len oas = len l) as Hlen
    by (unfold len; rewrite (repr_args_length _ _ _ Hargs); reflexivity).
  rewrite Hlen.
  destruct (class_nargs cls =? 0).
  { exists [], (Raise (ValueError "nargs need to be set")).
    rewrite app_nil_r. auto. }
  destruct (negb (len l =? _)).
  { exists [], (Raise (ValueError "Incorrect number of parameters")).
    rewrite app_nil_r. auto. }
  rewrite (repr_args_get_nscalars _ _ _ Hargs).
  eexists [_], _. split; [reflexivity|].
  exists (List.length s). split; [reflexivity|]. split; [lia|].
  eapply repr_object.
  - rewrite nth_error_app2, Nat.sub_diag by lia. reflexivity.
  - reflexivity.
  - reflexivity.
  - reflexivity.
  - reflexivity.
  - reflexivity.
  - reflexivity.
  - simpl. apply repr_args_mono. exact Hargs.
Qed.

(** The loop of [rebuild] on the store follows the loop on the tree. *)
Lemma rebuild_loop_simulates (T : node) (self : addr) (o : object)
    (params : option (list V)) (limit : nat) (tas : list (arg V node)) :
  (forall e, In (Expr e) tas ->
     forall (s : store) a p,
       repr s a e -> simulates s (store_rebuild limit a p s) (rebuild e p)) ->
  o_accum_nscalars o = _accum_nscalars T ->
  forall (oas : list (arg V addr)) (i : Z) (s : store),
    nth_error s self = Some o ->
    repr_args s oas tas ->
    exists s_new r,
      enum_mapS (store_rebuild_arg (store_rebuild limit) self params) i oas s
      = (s ++ s_new, r)
      /\ match enum_mapM (rebuild_arg T params) i tas with
         | Ok l' => exists oas', r = Ok oas' /\ repr_args (s ++ s_new) oas' l'
         | Raise e => r = Raise e
         end.
Proof.
  intros IH Hacc.
  induction tas as [|ta tas IHtas]; intros oas i s Hself Hargs;
    inversion Hargs as [|v oas' tas' Hrest|a e oas' tas' Hre Hrest]; subst.
  - exists [], (Ok []). rewrite app_nil_r. split; [reflexivity|].
    exists []. split; [reflexivity | constructor].
  - (* a scalar leaf: the store is not touched *)
    cbn [enum_mapS enum_mapM store_rebuild_arg rebuild_arg].
    destruct params as [ps|].
    + destruct (negb (len ps =? 1)).
      { exists [], (Raise (ValueError "Incorrect length of params")).
        rewrite app_nil_r. split; reflexivity. }
      destruct (py_getitem ps 0) as [p0|ex]; cbn [bind].
      2:{ exists [], (Raise ex). rewrite app_nil_r. split; reflexivity. }
      destruct (IHtas (fun e He => IH e (or_intror He)) oas' (i + 1) s Hself Hrest)
        as (s_new & r & Hrun & Hres).
      rewrite Hrun.
      destruct (enum_mapM (rebuild_arg T (Some ps)) (i + 1) tas) as [l'|ex].
      * destruct Hres as (oas'' & -> & Hrep).
        exists s_new, (Ok (Leaf p0 :: oas'')). split; [reflexivity|].
        exists (Leaf p0 :: oas''). split; [reflexivity|]. constructor. exact Hrep.
      * subst r. exists s_new, (Raise ex). split; reflexivity.
    + destruct (IHtas (fun e He => IH e (or_intror He)) oas' (i + 1) s Hself Hrest)
        as (s_new & r & Hrun & Hres).
      rewrite Hrun.
      destruct (enum_mapM (rebuild_arg T None) (i + 1) tas) as [l'|ex].
      * destruct Hres as (oas'' & -> & Hrep).
        exists s_new, (Ok (Leaf v :: oas'')). split; [reflexivity|].
        exists (Leaf v :: oas''). split; [reflexivity|]. constructor. exact Hrep.
      * subst r. exists s_new, (Raise ex). split; reflexivity.
  - (* a nested node: rebuilt in the store, which grows *)
    cbn [enum_mapS enum_mapM store_rebuild_arg rebuild_arg].
    assert (store_sub_params s self i params = _sub_params T i params) as ->.
    { unfold store_sub_params, _sub_params, deref.
      destruct params as [ps|]; [|reflexivity].
      rewrite Hself. cbn [bind]. rewrite Hacc. reflexivity. }
    destruct (_sub_params T i params) as [p|ex]; cbn [bind].
    2:{ exists [], (Raise ex). rewrite app_nil_r. split; reflexivity. }
    destruct (IH e (or_introl eq_refl) s a p Hre) as (n1 & r1 & Hrun1 & Hres1).
    rewrite Hrun1.
    destruct (rebuild e p) as [e'|ex]; cbn [bind].
    2:{ subst r1. exists n1, (Raise ex). split; reflexivity. }
    destruct Hres1 as (a' & -> & _ & Hrep1).
    assert (nth_error (s ++ n1) self = Some o) as Hself1.
    { rewrite nth_error_app1; [exact Hself|]. apply nth_error_Some. congruence. }
    destruct (IHtas (fun e0 He => IH e0 (or_intror He)) oas' (i + 1) (s ++ n1)
                Hself1 (repr_args_mono _ n1 _ _ Hrest))
      as (n2 & r2 & Hrun2 & Hres2).
    rewrite Hrun2, <- app_assoc.
    destruct (enum_mapM (rebuild_arg T params) (i + 1) tas) as [l'|ex].
    + destruct Hres2 as (oas'' & -> & Hrep2).
      exists (n1 ++ n2), (Ok (Expr a' :: oas'')). split; [reflexivity|].
      exists (Expr a' :: oas''). split; [reflexivity|].
      rewrite app_assoc. constructor; [apply repr_mono; exact Hrep1 | exact Hrep2].
    + subst r2. exists (n1 ++ n2), (Raise ex). split; reflexivity.
Qed.

End StoreFacts.

Section Frame.

Context {V C State : Type} `{PO : PyObject V State} `{SC : Scalar V C} {K R : Type}.

Local Abbreviation node := (node V C K R).
Local Abbreviation store := (store V C K R).
Local Abbreviation object := (object V C K R).

Lemma depth_unfold (T : node) :
  depth T = S (list_max (map (fun a => match a with
                                       | Expr e => depth e
                                       | Leaf _ => O
                                       end) (args T))).
Proof. destruct T; reflexivity. Qed.

Lemma depth_child (T e : node) : In (Expr e) (args T) -> (depth e < depth T)%nat.
Proof.
  intros Hin. rewrite (depth_unfold T).
  set (f := fun a : arg V node => match a with Expr e => depth e | Leaf _ => O end).
  assert (Forall (fun k => k <= list_max (map f (args T)))%nat (map f (args T))) as HF
    by (apply list_max_le; lia).
  rewrite Forall_forall in HF.
  specialize (HF (f (Expr e)) (in_map f _ _ Hin)). simpl in HF. lia.
Qed.

(** [rebuild] on the store simulates [rebuild] on the tree, within the
    recursion limit. *)
Lemma store_rebuild_simulates (T : node) :
  constructed T ->
  forall (limit : nat) (s : store) (a : addr) (params : option (list V)),
    (depth T <= limit)%nat -> repr s a T ->
    simulates s (store_rebuild limit a params s) (rebuild T params).
Proof.
  induction 1 as [cls l hard r T Hch IH Hinit].
  intros limit s a params Hd Hrep.
  apply init_ok in Hinit as (HT & _).
  assert (args T = l) as El by (rewrite HT; reflexivity).
  destruct limit as [|limit]; [rewrite depth_unfold in Hd; lia|].
  inversion Hrep as [a0 o T0 Hn Hc Hna Hh Hr Hns Hacc Hargs]; subst a0 T0.
  cbn [store_rebuild]. unfold deref at 1. rewrite Hn.
  assert (forall e, In (Expr e) (args T) ->
            forall (s : store) a p, repr s a e ->
              simulates s (store_rebuild limit a p s) (rebuild e p)) as IH'.
  { intros e He s0 a0 p Hre. rewrite El in He.
    apply IH; [exact He | | exact Hre].
    rewrite <- El in He. apply depth_child in He. lia. }
  destruct (rebuild_loop_simulates T a o params limit (args T) IH' Hacc
              (o_args o) 0 s Hn Hargs) as (n1 & r1 & Hrun & Hres).
  rewrite Hrun, rebuild_unfold.
  destruct (enum_mapM (rebuild_arg T params) 0 (args T)) as [l'|ex]; cbn [bind].
  - destruct Hres as (oas' & -> & Hrep').
    unfold deref. rewrite nth_error_app1 by (apply nth_error_Some; congruence).
    rewrite Hn, Hc, Hh, Hr.
    destruct (store_init_simulates (__class__ T) oas' l' (hard_args T) (ref T)
                (s ++ n1) Hrep') as (n2 & r2 & Hrun2 & Hres2).
    rewrite Hrun2, <- app_assoc. exists (n1 ++ n2), r2. split; [reflexivity|].
    destruct (__init__ (__class__ T) l' (hard_args T) (ref T)) as [T'|ex]; [|exact Hres2].
    destruct Hres2 as (a' & -> & Hfresh & Hrep2).
    exists a'. split; [reflexivity|]. rewrite length_app in Hfresh.
    split; [lia|]. rewrite app_assoc. exact Hrep2.
  - subst r1. exists n1, (Raise ex). split; reflexivity.
Qed.

Lemma enum_mapM_raise {A B : Type} (f : Z -> A -> result B)
    (l : list A) (i : Z) (e : exn) :
  enum_mapM f i l = Raise e ->
  exists k a, nth_error l k = Some a /\ f (i + Z.of_nat k) a = Raise e.
Proof.
  revert i. induction l as [|a l IH]; intros i H; simpl in H; [discriminate|].
  destruct (f i a) as [b|e0] eqn:Ef; simpl in H.
  - destruct (enum_mapM f (i + 1) l) as [bs|e1] eqn:El; simpl in H; [discriminate|].
    injection H as ->. destruct (IH _ El) as (k & a' & Hk & Hf).
    exists (S k), a'. split; [exact Hk|]. rewrite <- Hf. f_equal. lia.
  - injection H as ->. exists 0%nat, a. rewrite Z.add_0_r. auto.
Qed.

(** The only exception [rebuild] raises on a constructed tree is the
    length error, and only when parameters are supplied. *)
Lemma rebuild_raises_length (T : node) :
  constructed T ->
  forall params e, rebuild T params = Raise e ->
  e = ValueError "Incorrect length of params" /\ params <> None.
Proof.
  induction 1 as [cls l hard r T Hch IH Hinit].
  intros params e H.
  assert (constructed T) as HcT by (econstructor; eassumption).
  apply init_ok in Hinit as (HT & Hn0 & Har).
  assert (args T = l /\ __class__ T = cls) as (El & Ec) by (rewrite HT; simpl; auto).
  rewrite rebuild_unfold, El, Ec in H.
  destruct (enum_mapM (rebuild_arg T params) 0 l) as [l'|e0] eqn:Eloop; cbn [bind] in H.
  - apply enum_mapM_nth in Eloop as (Hlen & _).
    rewrite init_succeeds in H; [discriminate | exact Hn0 |].
    unfold len in *. rewrite Hlen. exact Har.
  - injection H as ->.
    apply enum_mapM_raise in Eloop as (k & a & Hk & Hf). rewrite Z.add_0_l in Hf.
    destruct a as [v|e1]; cbn [rebuild_arg] in Hf.
    + destruct params as [ps|]; [|discriminate].
      destruct (Z.eqb_spec (len ps) 1) as [Hps|]; cbn [negb] in Hf.
      * destruct ps as [|p ps]; [discriminate Hps|].
        rewrite py_getitem_head in Hf. discriminate.
      * injection Hf as <-. split; [reflexivity | discriminate].
    + assert (exists p, _sub_params T (Z.of_nat k) params = Ok p) as (p & Hp).
      { destruct params as [P|]; [|eexists; reflexivity].
        eexists. apply sub_params_nat; [exact HcT|].
        rewrite El. apply nth_error_Some. congruence. }
      rewrite Hp in Hf. cbn [bind] in Hf.
      destruct (rebuild e1 p) as [e1'|e2] eqn:Ere; [discriminate|].
      injection Hf as ->.
      destruct (IH e1 (nth_error_In _ _ Hk) p e Ere) as (-> & Hp0).
      split; [reflexivity|].
      intros ->. apply Hp0. simpl in Hp. congruence.
Qed.

End Frame.

(** ** The example trees *)

Lemma ex_mass_constructed : constructed ex_mass.
Proof.
  apply (constructed_init MassAction [Leaf 2%float] None tt).
  - intros e [H|[]]. discriminate.
  - reflexivity.
Qed.

Lemma ex_empty_sum_constructed : constructed ex_empty_sum.
Proof.
  apply (constructed_init Sum [] None tt).
  - intros e [].
  - reflexivity.
Qed.

Lemma ex_tree_constructed : constructed ex_tree.
Proof.
  apply (constructed_init Quotient [Expr ex_mass; Expr ex_empty_sum] None tt).
  - intros e [H|[H|[]]]; injection H as <-.
    + exact ex_mass_constructed.
    + exact ex_empty_sum_constructed.
  - reflexivity.
Qed.

Lemma ex_store_repr : repr ex_store 2%nat ex_tree.
Proof.
  eapply repr_object; try reflexivity. simpl.
  constructor; [|constructor; [|constructor]].
  - eapply repr_object; try reflexivity. simpl. repeat constructor.
  - eapply repr_object; try reflexivity. simpl. constructor.
Qed.

(** [ex_tree.rebuild([5.0])] allocates three objects after the three of
    [ex_store] and returns the last of them. *)
Example ex_store_rebuild :
  store_rebuild 2%nat 2%nat (Some [5%float]) ex_store =
  (ex_store ++
   [ Object MassAction 1 [Leaf 5%float] None tt [1] [0; 1];
     Object Sum 0 [] None tt [] [0];
     Object Quotient 2 [Expr 3%nat; Expr 4%nat] None tt [1; 0] [0; 1; 1] ],
   Ok 5%nat).
Proof. reflexivity. Qed.

(** [Quotient([1.0, 2.0]).rebuild([3.0, 4.0])] raises, and so does the
    evaluation of argument 0 under the override [[3.0, 4.0]]. *)
Example ex_quotient_rebuild :
  rebuild ex_quotient (Some [3; 4]%float) =
  Raise (ValueError "Incorrect length of params").
Proof. reflexivity. Qed.

Example ex_quotient_eval_arg :
  eval_arg ex_quotient water_rsys 0 water_conc 0 (Some [3; 4]%float) =
  Raise (ValueError "Incorrect length of params").
Proof. reflexivity. Qed.

(** * The claims of the specification *)

Section Claims.

Context {V C State : Type} `{PO : PyObject V State} `{SC : Scalar V C} {K R : Type}.

Local Abbreviation node := (node V C K R).
Local Abbreviation ReactionSystem := (ReactionSystem V C K).
Local Abbreviation Reaction := (Reaction V C K).
Local Abbreviation store := (store V C K R).

(** C1.  Whenever [rebuild] returns on a flat vector [P] whose length is
    the last entry of [_accum_nscalars], the rebuilt tree flattens to [P];
    but [rebuild] does not return on every such vector: on a node of two
    scalar leaves and a vector of two values it raises, because a leaf is
    checked against the whole vector of its node and not against its own
    slice. *)
Theorem rebuild_round_trip (hard : option (list (K * C))) (r : R) :
  (forall (self self' : node) (P : list V),
     constructed self ->
     py_getitem (_accum_nscalars self) (-1) = Ok (len P) ->
     rebuild self (Some P) = Ok self' ->
     get_params self' = P)
  /\ (forall a b c d : V,
        exists self : node,
          __init__ Quotient [Leaf a; Leaf b] hard r = Ok self
          /\ py_getitem (_accum_nscalars self) (-1) = Ok (len [c; d])
          /\ rebuild self (Some [c; d]) =
             Raise (ValueError "Incorrect length of params")).
Proof.
  split.
  - intros self self' P Hc Hlast Hre.
    apply (rebuild_get_params self Hc P self'); [|exact Hre].
    destruct (constructed_fields self Hc) as (_ & Hns & Hacc).
    rewrite Hacc, accum_last, <- Hns in Hlast. congruence.
  - intros a b c d. eexists. split; [reflexivity|]. split; reflexivity.
Qed.

(** C2.  On a nested argument [eval_arg] evaluates the nested node with
    the slice of the override between entries [i] and [i+1] of
    [_accum_nscalars] (with no override when there is none), and on a
    scalar leaf without override it returns the leaf.  On a scalar leaf
    with an override it does not use the slice of the leaf: in a node of
    two leaves, argument 0 raises on a vector of two values, whose slice
    for the leaf has one item, and argument 1 returns the only value of a
    vector of one, whose slice for the leaf is empty. *)
Theorem eval_arg_override (rsys : ReactionSystem) (ri : Z) (concs : list V) :
  (forall (self e : node) (i : Z) (ps : list V),
     constructed self -> 0 <= i ->
     py_getitem (args self) i = Ok (Expr e) ->
     eval_arg self rsys ri concs i None = eval e rsys ri concs None
     /\ exists lo hi,
          py_getitem (_accum_nscalars self) i = Ok lo
          /\ py_getitem (_accum_nscalars self) (i + 1) = Ok hi
          /\ eval_arg self rsys ri concs i (Some ps) =
             eval e rsys ri concs (Some (py_slice ps lo hi)))
  /\ (forall (self : node) (i : Z) (v : V),
        py_getitem (args self) i = Ok (Leaf v) ->
        eval_arg self rsys ri concs i None = Ok v)
  /\ (forall (a b c d : V) (hard : option (list (K * C))) (r : R),
        exists self : node,
          __init__ Quotient [Leaf a; Leaf b] hard r = Ok self
          /\ _sub_params self 0 (Some [c; d]) = Ok (Some [c])
          /\ eval_arg self rsys ri concs 0 (Some [c; d]) =
             Raise (ValueError "Incorrect length of params")
          /\ _sub_params self 1 (Some [c]) = Ok (Some [])
          /\ eval_arg self rsys ri concs 1 (Some [c]) = Ok c).
Proof.
  split; [|split].
  - intros self e i ps Hc Hi Ha.
    destruct (eval_arg_nested self e rsys ri concs i Ha) as (Hnone & Hsome).
    split; [exact Hnone|].
    destruct (py_getitem_nonneg_inv _ _ _ Hi Ha) as (_ & Hlt).
    destruct (constructed_fields self Hc) as (_ & Hns & Hacc).
    assert (List.length (_nscalars self) = List.length (args self)) as Hlen
      by (rewrite Hns; apply length_map).
    exists (sum (firstn (Z.to_nat i) (_nscalars self))),
           (sum (firstn (S (Z.to_nat i)) (_nscalars self))).
    assert (py_getitem (_accum_nscalars self) i
            = Ok (sum (firstn (Z.to_nat i) (_nscalars self)))) as Hlo.
    { rewrite <- (Z2Nat.id i) at 1 by exact Hi.
      apply py_getitem_ok_nat. rewrite Hacc, <- Hns. apply accum_nth. lia. }
    assert (py_getitem (_accum_nscalars self) (i + 1)
            = Ok (sum (firstn (S (Z.to_nat i)) (_nscalars self)))) as Hhi.
    { replace (i + 1) with (Z.of_nat (S (Z.to_nat i))) by lia.
      apply py_getitem_ok_nat. rewrite Hacc, <- Hns. apply accum_nth. lia. }
    repeat split; try assumption. apply Hsome; assumption.
  - intros self i v Ha. apply (eval_arg_leaf self v rsys ri concs i Ha).
  - intros a b c d hard r. eexists. split; [reflexivity|].
    repeat split.
Qed.

(** C3, as the code has it.  A [Sum] of no argument can be constructed,
    and its evaluation raises the TypeError of [reduce] on an empty
    sequence; a [Sum] of one argument evaluates to [eval_arg] of its
    argument 0. *)
Theorem Sum_eval_small (hard : option (list (K * C))) (r : R)
    (rsys : ReactionSystem) (ri : Z) (concs : list V) (params : option (list V)) :
  (exists self : node,
     __init__ Sum [] hard r = Ok self
     /\ eval self rsys ri concs params = Raise TypeError)
  /\ (forall a, exists self : node,
        __init__ Sum [a] hard r = Ok self
        /\ eval self rsys ri concs params = eval_arg self rsys ri concs 0 params).
Proof.
  split.
  - eexists. split; [reflexivity|]. apply eval_Sum_0; reflexivity.
  - intros a. eexists. split; [reflexivity|]. apply eval_Sum_1; reflexivity.
Qed.

(** C4.  The values the generator yields are, in the order of the
    reactions, the rates the specification describes, up to the first
    reaction whose rate is not defined; the generator ends without an
    exception exactly when the rate of every reaction is defined (every
    key has an index inside the concentrations, [params], when supplied,
    has an entry per reaction, and no power or product raises), and it
    then yields exactly one such rate per reaction; and on the system of
    the docstring the first rate is the float [0.00554]. *)
Theorem law_of_mass_action_rates_spec :
  (forall (conc : list V) (rsys : ReactionSystem)
          (params : option (list V)) (state : State),
     yielded (law_of_mass_action_rates conc rsys params state) =
     ok_prefix (map (fun '(i, rxn) => spec_rate conc rsys params state i rxn)
                    (enumerate (rxns rsys)))
     /\ (raised (law_of_mass_action_rates conc rsys params state) = None
         <-> (forall i rxn, In (i, rxn) (enumerate (rxns rsys)) ->
                is_ok (spec_rate conc rsys params state i rxn) = true))
     /\ ((forall i rxn, In (i, rxn) (enumerate (rxns rsys)) ->
            is_ok (spec_rate conc rsys params state i rxn) = true) ->
         map Ok (yielded (law_of_mass_action_rates conc rsys params state)) =
         map (fun '(i, rxn) => spec_rate conc rsys params state i rxn)
             (enumerate (rxns rsys))))
  /\ next (law_of_mass_action_rates water_conc water_rsys None tt) = Ok 0.00554%float.
Proof.
  split.
  - intros conc rsys params state.
    unfold law_of_mass_action_rates, enumerate.
    split; [apply rates_from_spec|]. split; [apply rates_from_raised|].
    intros Hok. rewrite rates_from_spec. apply ok_prefix_all.
    intros r Hr. apply in_map_iff in Hr as ([i rxn] & <- & Hin).
    apply Hok. exact Hin.
  - vm_compute. reflexivity.
Qed.

(** C5.  For every constructed tree, [rebuild] without parameters returns
    a tree that evaluates as the receiver does, whatever the reaction
    system, the reaction index, the concentrations and the override. *)
Theorem rebuild_None_eval (self : node) :
  constructed self ->
  exists self',
    rebuild self None = Ok self'
    /\ forall (rsys : ReactionSystem) ri concs params,
         eval self' rsys ri concs params = eval self rsys ri concs params.
Proof.
  intros Hc. exists self. split.
  - apply rebuild_None. exact Hc.
  - reflexivity.
Qed.

(** C6.  For every constructed tree, the last entry of [_accum_nscalars]
    is the number of scalars [get_params] returns: the slicing layout and
    the flattening agree on how many scalars the tree owns. *)
Theorem get_params_length_accum (self : node) :
  constructed self ->
  py_getitem (_accum_nscalars self) (-1) = Ok (len (get_params self)).
Proof.
  intros Hc.
  destruct (constructed_fields self Hc) as (_ & Hns & Hacc).
  rewrite Hacc, accum_last, <- Hns.
  f_equal. apply nscalars_get_params. exact Hc.
Qed.

(** C7.  [rebuild], run on the store where the receiver lives and within
    the recursion limit, only appends objects: every object that existed,
    the receiver and its nested nodes among them, is left as it was and
    the receiver still represents the same tree.  When it returns, the
    result is a new object that represents a constructed tree of the same
    class, [hard_args], [ref], arity and scalar layout, and of the same
    shape at every level; when it raises, the exception is the length
    error of a supplied parameter vector. *)
Theorem rebuild_frame (T : node) (s : store) (a : addr)
    (params : option (list V)) (limit : nat) :
  constructed T -> repr s a T -> (depth T <= limit)%nat ->
  exists s_new r,
    store_rebuild limit a params s = (s ++ s_new, r)
    /\ (forall a0 o, nth_error s a0 = Some o -> nth_error (s ++ s_new) a0 = Some o)
    /\ repr (s ++ s_new) a T
    /\ match r with
       | Ok a' =>
           (List.length s <= a')%nat
           /\ exists T',
                rebuild T params = Ok T'
                /\ repr (s ++ s_new) a' T'
                /\ __class__ T' = __class__ T
                /\ hard_args T' = hard_args T
                /\ ref T' = ref T
                /\ nargs T' = nargs T
                /\ _nscalars T' = _nscalars T
                /\ _accum_nscalars T' = _accum_nscalars T
                /\ shape T' = shape T
                /\ constructed T'
       | Raise e =>
           rebuild T params = Raise e
           /\ e = ValueError "Incorrect length of params"
           /\ params <> None
       end
    /\ (params = None -> exists a', r = Ok a').
Proof.
  intros Hc Hrep Hd.
  destruct (store_rebuild_simulates T Hc limit s a params Hd Hrep)
    as (s_new & r & Hrun & Hres).
  exists s_new, r. split; [exact Hrun|]. split; [|split; [|split]].
  - intros a0 o Ha0. rewrite nth_error_app1; [exact Ha0|].
    apply nth_error_Some. congruence.
  - apply repr_mono. exact Hrep.
  - destruct (rebuild T params) as [T'|e] eqn:Ere.
    + destruct Hres as (a' & -> & Hfresh & Hrep').
      split; [exact Hfresh|]. exists T'.
      destruct (rebuild_shape T Hc params T' Ere) as (Hsh & Hc').
      pose proof Hsh as Hfields. rewrite !shape_unfold in Hfields.
      injection Hfields as Ecls Enargs Ehard Eref Ens Eacc _.
      repeat split; assumption.
    + subst r. split; [reflexivity|].
      apply (rebuild_raises_length T Hc params e Ere).
  - intros ->. rewrite (rebuild_None T Hc) in Hres.
    destruct Hres as (a' & -> & _). exists a'. reflexivity.
Qed.

(** C8.  A class of positive fixed arity raises the arity error exactly
    when the number of arguments differs from that arity, and otherwise
    returns a node holding the arguments; [Quotient] refuses one and three
    arguments and accepts two; the variadic [Sum] accepts any number of
    arguments and takes that number as its [nargs]. *)
Theorem init_arity (hard : option (list (K * C))) (r : R) :
  (forall cls (l : list (arg V node)),
     0 < class_nargs cls ->
     (__init__ cls l hard r = Raise (ValueError "Incorrect number of parameters")
      <-> len l <> class_nargs cls)
     /\ (len l = class_nargs cls ->
         exists self, __init__ cls l hard r = Ok self
                      /\ nargs self = class_nargs cls /\ args self = l))
  /\ (forall a b c : arg V node,
        __init__ Quotient [a] hard r = Raise (ValueError "Incorrect number of parameters")
        /\ __init__ Quotient [a; b; c] hard r = Raise (ValueError "Incorrect number of parameters")
        /\ is_ok (__init__ Quotient [a; b] hard r) = true)
  /\ (forall l : list (arg V node),
        exists self, __init__ Sum l hard r = Ok self
                     /\ nargs self = len l /\ args self = l).
Proof.
  split; [|split].
  - intros cls l Hpos. unfold __init__.
    destruct (Z.eqb_spec (class_nargs cls) 0) as [|_]; [lia|].
    destruct (Z.eqb_spec (class_nargs cls) (-1)) as [|_]; [lia|].
    destruct (Z.eqb_spec (len l) (class_nargs cls)) as [Heq|Hne]; simpl.
    + split; [split; [discriminate | contradiction]|].
      intros _. eexists. split; [reflexivity|]. simpl. auto.
    + split; [split; auto | contradiction].
  - intros a b c. repeat split.
  - intros l. eexists. split.
    + apply init_succeeds; simpl; [discriminate | left; reflexivity].
    + simpl. auto.
Qed.

(** C9.  [_eval_k] calls [k] with the state when [k] is callable and its
    class is not named [Symbol], and returns [k] itself in every other
    case; an object of class [Symbol] is returned as it is, callable or
    not. *)
Theorem eval_k_cases (k : V) (state : State) :
  (callable k = true -> class_name k <> "Symbol" -> _eval_k k state = call k state)
  /\ (callable k = false -> _eval_k k state = k)
  /\ (class_name k = "Symbol" -> _eval_k k state = k).
Proof.
  unfold _eval_k. repeat split.
  - intros Hc Hn. rewrite Hc.
    destruct (String.eqb_spec (class_name k) "Symbol"); [contradiction | reflexivity].
  - intros Hc. rewrite Hc. reflexivity.
  - intros Hn. rewrite Hn, String.eqb_refl, andb_false_r. reflexivity.
Qed.

(** C10.  Evaluating a [MassAction] node on a reaction of empty [reac], or
    a [GeneralPow] node of empty [hard_args], raises: once argument 0 is
    evaluated, [reduce] fails with TypeError on the empty list of powers.
    The generator, whose product starts at [1], yields [1 * k] on the same
    reaction. *)
Theorem empty_product_raises (self : node) (rsys : ReactionSystem) (ri : Z)
    (concs : list V) (params : option (list V)) :
  (__class__ self = MassAction ->
   forall rxn, py_getitem (rxns rsys) ri = Ok rxn -> reac rxn = [] ->
   exists e, eval self rsys ri concs params = Raise e
             /\ (is_ok (eval_arg self rsys ri concs 0 params) = true -> e = TypeError))
  /\ (__class__ self = GeneralPow -> hard_args self = Some [] ->
      exists e, eval self rsys ri concs params = Raise e
                /\ (is_ok (eval_arg self rsys ri concs 0 params) = true -> e = TypeError))
  /\ (forall (rxn : Reaction) state idx, reac rxn = [] ->
      rate_of concs rsys None state idx rxn = mul one (_eval_k (param rxn) state)).
Proof.
  split; [|split].
  - intros Hc rxn Hrxn Hreac. rewrite eval_unfold. unfold eval_formula.
    rewrite Hc, Hrxn.
    destruct (eval_arg self rsys ri concs 0 params) as [k|e]; simpl.
    + rewrite Hreac. exists TypeError. auto.
    + exists e. split; [reflexivity | discriminate].
  - intros Hc Hh. rewrite eval_unfold. unfold eval_formula.
    rewrite Hc, Hh.
    destruct (eval_arg self rsys ri concs 0 params) as [k|e]; simpl.
    + exists TypeError. auto.
    + exists e. split; [reflexivity | discriminate].
  - intros rxn state idx Hreac. unfold rate_of, rate_loop. rewrite Hreac. reflexivity.
Qed.

End Claims.



(** A check of C6 on [Quotient([MassAction([2.0]), Sum([])])]. *)
Lemma get_params_length_accum_ex :
  constructed ex_tree
  /\ py_getitem (_accum_nscalars ex_tree) (-1) = Ok (len (get_params ex_tree)).
Proof.
  split.
  - exact ex_tree_constructed.
  - apply (get_params_length_accum ex_tree). exact ex_tree_constructed.
Defined.

(** A check of C5 on the same tree. *)
Lemma rebuild_None_eval_ex :
  constructed ex_tree
  /\ exists self',
       rebuild ex_tree None = Ok self'
       /\ forall (rsys : ReactionSystem float exponent string) ri concs params,
            eval self' rsys ri concs params = eval ex_tree rsys ri concs params.
Proof.
  split.
  - exact ex_tree_constructed.
  - apply (rebuild_None_eval ex_tree). exact ex_tree_constructed.
Defined.

(** C3 as the specification states it fails: the empty [Sum] does not
    evaluate to 0, it raises. *)
Lemma Sum_of_nothing_raises :
  __init__ Sum [] None tt = Ok ex_empty_sum
  /\ eval ex_empty_sum water_rsys 0 water_conc None = Raise TypeError
  /\ eval ex_empty_sum water_rsys 0 water_conc None <> Ok 0%float.
Proof.
  split; [reflexivity|]. split; [reflexivity|]. discriminate.
Qed.

(** A check of C7 on [ex_tree.rebuild([5.0])] in [ex_store]. *)
Lemma rebuild_frame_ex :
  constructed ex_tree /\ repr ex_store 2%nat ex_tree /\ (depth ex_tree <= 2)%nat
  /\ exists s_new r,
       store_rebuild 2%nat 2%nat (Some [5%float]) ex_store = (ex_store ++ s_new, r)
       /\ (forall a0 o, nth_error ex_store a0 = Some o ->
             nth_error (ex_store ++ s_new) a0 = Some o)
       /\ repr (ex_store ++ s_new) 2%nat ex_tree
       /\ match r with
          | Ok a' =>
              (List.length ex_store <= a')%nat
              /\ exists T',
                   rebuild ex_tree (Some [5%float]) = Ok T'
                   /\ repr (ex_store ++ s_new) a' T'
                   /\ __class__ T' = __class__ ex_tree
                   /\ hard_args T' = hard_args ex_tree
                   /\ ref T' = ref ex_tree
                   /\ nargs T' = nargs ex_tree
                   /\ _nscalars T' = _nscalars ex_tree
                   /\ _accum_nscalars T' = _accum_nscalars ex_tree
                   /\ shape T' = shape ex_tree
                   /\ constructed T'
          | Raise e =>
              rebuild ex_tree (Some [5%float]) = Raise e
              /\ e = ValueError "Incorrect length of params"
              /\ Some [5%float] <> None
          end
       /\ (Some [5%float] = None -> exists a', r = Ok a').
Proof.
  assert (depth ex_tree <= 2)%nat as Hd by (simpl; lia).
  split; [exact ex_tree_constructed|]. split; [exact ex_store_repr|].
  split; [exact Hd|].
  exact (rebuild_frame ex_tree ex_store 2%nat (Some [5%float]) 2%nat
           ex_tree_constructed ex_store_repr Hd).
Defined.

(** A check of C1 on [ex_tree.rebuild([5.0])]. *)
Lemma rebuild_round_trip_ex :
  exists T',
    rebuild ex_tree (Some [5%float]) = Ok T' /\ get_params T' = [5%float].
Proof.
  eexists. split; [reflexivity|].
  apply (proj1 (rebuild_round_trip (V := float) (K := string) None tt)
           ex_tree _ [5%float] ex_tree_constructed);
    reflexivity.
Defined.

(** A check of C2 on argument 0 of [ex_tree], under the override [[5.0]]. *)
Lemma eval_arg_override_ex :
  eval_arg ex_tree water_rsys 0 water_conc 0 None
  = eval ex_mass water_rsys 0 water_conc None
  /\ exists lo hi,
       py_getitem (_accum_nscalars ex_tree) 0 = Ok lo
       /\ py_getitem (_accum_nscalars ex_tree) (0 + 1) = Ok hi
       /\ eval_arg ex_tree water_rsys 0 water_conc 0 (Some [5%float])
          = eval ex_mass water_rsys 0 water_conc (Some (py_slice [5%float] lo hi)).
Proof.
  apply (proj1 (eval_arg_override (R := unit) water_rsys 0 water_conc)
           ex_tree ex_mass 0 [5%float] ex_tree_constructed).
  - lia.
  - reflexivity.
Defined.

(** A check of C4 on the reaction [A + 2 B -> C] whose parameter is a
    function of the temperature, at 300 K. *)
Lemma law_of_mass_action_rates_ex :
  map Ok (yielded (law_of_mass_action_rates law_conc law_rsys None 300)) =
  map (fun '(i, rxn) => spec_rate law_conc law_rsys None 300 i rxn)
      (enumerate (rxns law_rsys)).
Proof.
  apply (proj2 (proj2 (proj1 (law_of_mass_action_rates_spec
                                (V := rate_value) (K := string))
                         law_conc law_rsys None 300))).
  intros i rxn [H|[]]. injection H as <- <-. reflexivity.
Defined.

(** On that system the parameter is called with the temperature: the
    rate at 300 K is [3 * 5 ** 2 * (300 / 100)]; an override by another
    function of the temperature replaces the parameter of the reaction;
    and an override that is not resolved would be multiplied as it is,
    which raises. *)
Lemma law_rsys_rates :
  law_of_mass_action_rates law_conc law_rsys None 300
  = Yield (Rational (fraction 225 1)) Stop
  /\ law_of_mass_action_rates law_conc law_rsys
       (Some [Arrhenius (fun temperature => fraction temperature 50)]) 300
     = Yield (Rational (fraction 450 1)) Stop
  /\ mul (Rational (fraction 75 1)) (param law_rxn) = Raise TypeError.
Proof. repeat split; vm_compute; reflexivity. Qed.

(** A quotient of floats by a zero of either sign raises, a quotient by
    a NaN does not. *)
Lemma float_div_zero :
  div 1%float 0%float = Raise ZeroDivisionError
  /\ div 1%float (-0)%float = Raise ZeroDivisionError
  /\ is_ok (div 1%float nan) = true.
Proof. repeat split; vm_compute; reflexivity. Qed.

(** A check of C8 on [Quotient([1.0, 2.0])]. *)
Lemma init_arity_ex :
  exists self : node float exponent string unit,
    __init__ Quotient [Leaf 1%float; Leaf 2%float] None tt = Ok self
    /\ nargs self = class_nargs Quotient
    /\ args self = [Leaf 1%float; Leaf 2%float].
Proof.
  apply (proj1 (init_arity (V := float) None tt) Quotient [Leaf 1%float; Leaf 2%float]).
  - reflexivity.
  - reflexivity.
Defined.

(** A check of C9 on a function of the temperature, on a number and on a
    symbol. *)
Lemma eval_k_cases_ex :
  _eval_k (Provider (fun t => 2 * t)) 300 = Number 600
  /\ _eval_k (Number 5) 300 = Number 5
  /\ _eval_k (Symbol "k") 300 = Symbol "k".
Proof.
  split; [|split].
  - change (Number 600) with (call (Provider (fun t => 2 * t)) 300).
    apply (proj1 (eval_k_cases (Provider (fun t => 2 * t)) 300)).
    + reflexivity.
    + discriminate.
  - apply (proj1 (proj2 (eval_k_cases (Number 5) 300))). reflexivity.
  - apply (proj2 (proj2 (eval_k_cases (Symbol "k") 300))). reflexivity.
Defined.

(** A check of C10 on [MassAction([2.0])] and [GeneralPow([1.0], {})]. *)
Lemma empty_product_raises_ex :
  eval ex_mass bare_rsys 0 water_conc None = Raise TypeError
  /\ eval ex_pow water_rsys 0 water_conc None = Raise TypeError.
Proof.
  split.
  - destruct (proj1 (empty_product_raises ex_mass bare_rsys 0 water_conc None)
                eq_refl _ eq_refl eq_refl) as (e & He & Hty).
    rewrite He. f_equal. apply Hty. reflexivity.
  - destruct (proj1 (proj2 (empty_product_raises ex_pow water_rsys 0 water_conc None))
                eq_refl eq_refl) as (e & He & Hty).
    rewrite He. f_equal. apply Hty. reflexivity.
Defined.

(** * Further properties of the module *)

(** ** The layout of the parameter slots *)

Section Layout.

Context {V C State : Type} `{PO : PyObject V State} `{SC : Scalar V C} {K R : Type}.

Local Abbreviation node := (node V C K R).

Lemma get_nscalars_arg_scalars (l : list (arg V node)) :
  (forall e, In (Expr e) l -> constructed e) ->
  _get_nscalars l = map arg_scalars l.
Proof.
  intros H. unfold _get_nscalars. apply map_ext_in.
  intros [v|e] Hin; [reflexivity|].
  simpl. apply nscalars_get_params. apply H. exact Hin.
Qed.

(** X1.  In a constructed node [nargs] is the number of arguments,
    [_accum_nscalars] has one entry more, starts at 0, and the entries
    around argument [k] are apart by the number of scalars of that
    argument: one for a leaf, the length of [get_params] for a nested
    node.  So the entries never decrease. *)
Theorem accum_layout (self : node) :
  constructed self ->
  nargs self = len (args self)
  /\ len (_accum_nscalars self) = nargs self + 1
  /\ py_getitem (_accum_nscalars self) 0 = Ok 0
  /\ forall k a,
       nth_error (args self) k = Some a ->
       0 <= arg_scalars a
       /\ exists lo,
            0 <= lo
            /\ py_getitem (_accum_nscalars self) (Z.of_nat k) = Ok lo
            /\ py_getitem (_accum_nscalars self) (Z.of_nat k + 1)
               = Ok (lo + arg_scalars a).
Proof.
  intros Hc.
  destruct (constructed_fields self Hc) as (Hn & Hns & Hacc).
  destruct (constructed_inv self Hc) as (Hch & _).
  pose proof (get_nscalars_nonneg (args self) Hch) as Hnn.
  pose proof (get_nscalars_arg_scalars (args self) Hch) as Hmap.
  assert (List.length (_get_nscalars (args self)) = List.length (args self)) as Hlen
    by apply length_map.
  split; [exact Hn|]. split; [|split].
  - rewrite Hacc, Hn. unfold len. rewrite accum_length, Hlen. lia.
  - rewrite Hacc. apply (py_getitem_ok_nat _ 0). rewrite accum_nth by lia. reflexivity.
  - intros k a Hk.
    assert (k < List.length (args self))%nat as Hlt
      by (apply nth_error_Some; congruence).
    assert (nth_error (_get_nscalars (args self)) k = Some (arg_scalars a)) as Hnk
      by (rewrite Hmap, nth_error_map, Hk; reflexivity).
    pose proof (sum_firstn_bounds _ k Hnn) as Hlo.
    split.
    + rewrite Forall_forall in Hnn. apply Hnn. eapply nth_error_In. exact Hnk.
    + exists (sum (firstn k (_get_nscalars (args self)))).
      split; [lia|]. rewrite Hacc. split.
      * apply py_getitem_ok_nat. apply accum_nth. lia.
      * replace (Z.of_nat k + 1) with (Z.of_nat (S k)) by lia.
        apply py_getitem_ok_nat. rewrite accum_nth by lia.
        rewrite (sum_firstn_S _ _ _ Hnk). reflexivity.
Qed.

Lemma mapM_map_Ok {A B : Type} (f : A -> B) (l : list A) :
  mapM (fun a => Ok (f a)) l = Ok (map f l).
Proof.
  induction l as [|a l IH]; [reflexivity|].
  cbn [mapM map bind]. rewrite IH. reflexivity.
Qed.

Lemma mapM_ext_in {A B : Type} (f g : A -> result B) (l : list A) :
  (forall a, In a l -> f a = g a) -> mapM f l = mapM g l.
Proof.
  induction l as [|a l IH]; intros H; [reflexivity|].
  cbn [mapM]. rewrite (H a (or_introl eq_refl)), IH; [reflexivity|].
  intros b Hb. apply H. right. exact Hb.
Qed.

(** X2.  The slices [_sub_params] cuts for the arguments [0 .. nargs-1]
    of a constructed node, out of a vector whose length is the last entry
    of [_accum_nscalars], are all cut without error and laid end to end
    they are the vector: they overlap nowhere and leave nothing out. *)
Theorem sub_params_tile (self : node) (P : list V) :
  constructed self ->
  py_getitem (_accum_nscalars self) (-1) = Ok (len P) ->
  exists slices,
    mapM (fun i => _sub_params self i (Some P)) (range (nargs self))
    = Ok (map Some slices)
    /\ List.length slices = List.length (args self)
    /\ List.concat slices = P.
Proof.
  intros Hc Hlast.
  destruct (constructed_fields self Hc) as (Hn & Hns & Hacc).
  destruct (constructed_inv self Hc) as (Hch & _).
  pose proof (get_nscalars_nonneg (args self) Hch) as Hnn.
  rewrite <- Hns in Hnn.
  assert (List.length (_nscalars self) = List.length (args self)) as Hlen
    by (rewrite Hns; apply length_map).
  assert (sum (_nscalars self) = len P) as Hsum
    by (rewrite Hacc, accum_last, <- Hns in Hlast; congruence).
  set (cut := fun k => py_slice P (sum (firstn k (_nscalars self)))
                                  (sum (firstn (S k) (_nscalars self)))).
  exists (map cut (seq 0 (List.length (args self)))).
  split; [|split].
  - rewrite Hn. unfold range, len. rewrite Nat2Z.id.
    rewrite map_map.
    rewrite <- (mapM_map_Ok (fun k => Some (cut k))).
    rewrite <- (map_id (seq 0 (List.length (args self)))) at 2.
    generalize (seq 0 (List.length (args self))) (fun k => proj1 (in_seq (List.length (args self)) 0 k)).
    intros ks Hks. induction ks as [|k ks IH]; [reflexivity|].
    cbn [map mapM]. rewrite (sub_params_nat self k P Hc).
    + cbn [bind]. rewrite IH; [reflexivity|].
      intros j Hj. apply Hks. right. exact Hj.
    + apply (Hks k). left. reflexivity.
  - rewrite length_map, length_seq. reflexivity.
  - rewrite (slices_concat P (_nscalars self) _ 0 Hnn).
    + rewrite Z.add_0_l, Hsum. apply py_slice_all.
    + rewrite length_map, length_seq. symmetry. exact Hlen.
    + intros k piece Hk. rewrite nth_error_map in Hk.
      destruct (nth_error (seq 0 (List.length (args self))) k) as [j|] eqn:Ej;
        [|discriminate].
      injection Hk as <-.
      assert (j = k) as ->.
      { pose proof (nth_error_Some (seq 0 (List.length (args self))) k) as Hs.
        rewrite length_seq in Hs.
        assert (k < List.length (args self))%nat as Hlt by (apply Hs; congruence).
        rewrite nth_error_nth' with (d := O) in Ej by (rewrite length_seq; exact Hlt).
        rewrite seq_nth in Ej by exact Hlt. injection Ej as <-. reflexivity. }
      rewrite !Z.add_0_l. reflexivity.
    + lia.
    + lia.
Qed.

End Layout.

(** ** Override and rebuild *)

Section Coherence.

Context {V C State : Type} `{PO : PyObject V State} `{SC : Scalar V C} {K R : Type}.

Local Abbreviation node := (node V C K R).
Local Abbreviation ReactionSystem := (ReactionSystem V C K).

Lemma range_nonneg (n i : Z) : In i (range n) -> 0 <= i.
Proof.
  unfold range. intros H. apply in_map_iff in H as (k & <- & _). lia.
Qed.

(** The formulas only evaluate arguments of non-negative index. *)
Lemma eval_formula_congr (T1 T2 : node)
    (ea1 ea2 : Z -> option (list V) -> result V)
    (rsys : ReactionSystem) (ri : Z) (concs : list V) (p1 p2 : option (list V)) :
  __class__ T1 = __class__ T2 ->
  hard_args T1 = hard_args T2 ->
  nargs T1 = nargs T2 ->
  (forall i, 0 <= i -> ea1 i p1 = ea2 i p2) ->
  eval_formula T1 ea1 rsys ri concs p1 = eval_formula T2 ea2 rsys ri concs p2.
Proof.
  intros Hc Hh Hn H. unfold eval_formula. rewrite Hc, Hh, Hn.
  destruct (__class__ T2); rewrite ?(H 0), ?(H 1) by lia; try reflexivity.
  rewrite (mapM_ext_in (fun idx => ea1 idx p1) (fun idx => ea2 idx p2));
    [reflexivity|].
  intros i Hi. apply H. eapply range_nonneg. exact Hi.
Qed.

Lemma py_getitem_nonneg {A : Type} (l : list A) (i : Z) :
  0 <= i ->
  py_getitem l i =
  match nth_error l (Z.to_nat i) with Some a => Ok a | None => Raise IndexError end.
Proof.
  intros Hi. rewrite <- (Z2Nat.id i) at 1 by exact Hi. apply py_getitem_nat.
Qed.

(** X3.  Evaluating a constructed tree under an override is evaluating,
    without override, the tree [rebuild] returns for it: whenever
    [rebuild] returns, both give the same value or raise the same
    exception, for every reaction system, reaction and concentrations. *)
Theorem eval_override_rebuild (self : node) :
  constructed self ->
  forall (params : option (list V)) (self' : node)
         (rsys : ReactionSystem) (ri : Z) (concs : list V),
    rebuild self params = Ok self' ->
    eval self rsys ri concs params = eval self' rsys ri concs None.
Proof.
  induction 1 as [cls l hard r self Hch IH Hinit].
  intros params self' rsys ri concs H.
  apply init_ok in Hinit as (Hself & _).
  assert (args self = l /\ __class__ self = cls
          /\ hard_args self = hard /\ ref self = r /\ nargs self = len l)
    as (El & Ec & Eh & Er & En) by (rewrite Hself; simpl; auto).
  rewrite rebuild_unfold, El, Ec, Eh, Er in H.
  apply bind_ok in H as (l' & Hl' & Hinit').
  apply init_ok in Hinit' as (Hself' & _).
  apply enum_mapM_nth in Hl' as (Hlen & Hnth).
  rewrite !eval_unfold.
  apply eval_formula_congr.
  - rewrite Hself'. simpl. exact Ec.
  - rewrite Hself'. simpl. exact Eh.
  - rewrite Hself', En. unfold len. simpl. rewrite Hlen. reflexivity.
  - intros i Hi. unfold eval_arg.
    rewrite !(py_getitem_nonneg _ i Hi), El.
    replace (args self') with l' by (rewrite Hself'; reflexivity).
    destruct (nth_error l (Z.to_nat i)) as [a|] eqn:Ea.
    + destruct (Hnth _ _ Ea) as (b & Eb & Hf). rewrite Eb.
      rewrite Z.add_0_l, Z2Nat.id in Hf by exact Hi.
      destruct a as [v|e]; cbn [rebuild_arg] in Hf.
      * destruct params as [ps|].
        -- destruct (negb (len ps =? 1)); [discriminate|].
           apply bind_ok in Hf as (p0 & Hp0 & [= <-]). simpl. exact Hp0.
        -- injection Hf as <-. reflexivity.
      * apply bind_ok in Hf as (p & Hp & Hf).
        apply bind_ok in Hf as (e' & He' & [= <-]).
        rewrite Hp. cbn [bind _sub_params].
        apply (IH e (nth_error_In _ _ Ea) p e'). exact He'.
    + assert (nth_error l' (Z.to_nat i) = None) as ->; [|reflexivity].
      apply nth_error_None. rewrite Hlen. apply nth_error_None. exact Ea.
Qed.

(** X4.  In a constructed [Quotient] of two nested nodes, an override
    whose length is the total scalar count is split at the scalar count of
    the numerator: the numerator is evaluated with the first part, then
    the denominator with the rest, and the two values are divided, which
    returns the quotient or raises what the division of the scalars
    raises. *)
Theorem Quotient_eval_routing (e1 e2 : node) (hard : option (list (K * C))) (r : R)
    (P : list V) (rsys : ReactionSystem) (ri : Z) (concs : list V) :
  constructed e1 -> constructed e2 ->
  len P = len (get_params e1) + len (get_params e2) ->
  exists self,
    __init__ Quotient [Expr e1; Expr e2] hard r = Ok self
    /\ eval self rsys ri concs (Some P) =
       (a <- eval e1 rsys ri concs (Some (firstn (List.length (get_params e1)) P)) ;;
        b <- eval e2 rsys ri concs (Some (skipn (List.length (get_params e1)) P)) ;;
        div a b).
Proof.
  intros Hc1 Hc2 HP.
  eexists. split; [reflexivity|].
  set (self := Node Quotient _ _ _ _ _ _).
  rewrite eval_unfold. unfold eval_formula. cbn [__class__ self].
  destruct (eval_arg_nested self e1 rsys ri concs 0 eq_refl) as (_ & H0).
  destruct (eval_arg_nested self e2 rsys ri concs 1 eq_refl) as (_ & H1).
  rewrite (H0 P 0 (sum (_nscalars e1)) eq_refl eq_refl).
  rewrite (H1 P (sum (_nscalars e1)) (sum (_nscalars e1) + sum (_nscalars e2))
              eq_refl eq_refl).
  rewrite (nscalars_get_params _ Hc1), (nscalars_get_params _ Hc2).
  pose proof (len_nonneg (get_params e1)) as Hn1.
  pose proof (len_nonneg (get_params e2)) as Hn2.
  rewrite !py_slice_inside by lia.
  replace (Z.to_nat (len (get_params e1) - 0))
    with (List.length (get_params e1)) by (unfold len; lia).
  replace (Z.to_nat (len (get_params e1)))
    with (List.length (get_params e1)) by (unfold len; lia).
  replace (Z.to_nat (len (get_params e1) + len (get_params e2) - len (get_params e1)))
    with (List.length (skipn (List.length (get_params e1)) P))
    by (rewrite length_skipn; unfold len in *; lia).
  rewrite firstn_all. reflexivity.
Qed.

(** X5.  [GeneralPow] generalises [MassAction]: built on the same
    arguments, a [GeneralPow] node whose [hard_args] are the [reac] of
    reaction [ri] evaluates on that reaction as the [MassAction] node
    does, whatever the [hard_args] of the latter. *)
Theorem GeneralPow_as_MassAction (l : list (arg V node))
    (hard : option (list (K * C))) (r r' : R)
    (rsys : ReactionSystem) (ri : Z) (rxn : Reaction V C K)
    (concs : list V) (params : option (list V)) (gp ma : node) :
  py_getitem (rxns rsys) ri = Ok rxn ->
  __init__ GeneralPow l (Some (reac rxn)) r = Ok gp ->
  __init__ MassAction l hard r' = Ok ma ->
  eval gp rsys ri concs params = eval ma rsys ri concs params.
Proof.
  intros Hrxn Hgp Hma.
  apply init_ok in Hgp as (-> & _). apply init_ok in Hma as (-> & _).
  rewrite !eval_unfold. unfold eval_formula. cbn [__class__ hard_args].
  rewrite Hrxn.
  match goal with
  | |- bind ?x _ = bind ?y _ => change y with x; destruct x
  end; reflexivity.
Qed.

End Coherence.

(** ** When [rebuild] returns, and what *)

Section Overridable.

Context {V C State : Type} `{PO : PyObject V State} `{SC : Scalar V C} {K R : Type}.

Local Abbreviation node := (node V C K R).

Lemma overridable_unfold (self : node) :
  overridable self =
  (if existsb is_leaf (args self) then sum (_nscalars self) =? 1 else true)
  && forallb (fun a => match a with
                       | Expr e => overridable e
                       | Leaf _ => true
                       end) (args self).
Proof. destruct self; reflexivity. Qed.

(** The slice of a nested argument has the length that argument counts. *)
Lemma sub_slice_length (self e : node) (k : nat) (P : list V) :
  constructed self ->
  nth_error (args self) k = Some (Expr e) ->
  len P = sum (_nscalars self) ->
  len (py_slice P (sum (firstn k (_nscalars self)))
                  (sum (firstn (S k) (_nscalars self))))
  = sum (_nscalars e).
Proof.
  intros Hc Hk HP.
  destruct (constructed_fields self Hc) as (_ & Hns & _).
  destruct (constructed_inv self Hc) as (Hch & _).
  pose proof (get_nscalars_nonneg (args self) Hch) as Hnn. rewrite <- Hns in Hnn.
  assert (nth_error (_nscalars self) k = Some (sum (_nscalars e))) as Hn
    by (rewrite Hns; unfold _get_nscalars; rewrite nth_error_map, Hk; reflexivity).
  pose proof (sum_firstn_S _ _ _ Hn) as HS.
  pose proof (sum_firstn_bounds _ k Hnn) as Hlo.
  pose proof (sum_firstn_bounds _ (S k) Hnn) as Hhi.
  assert (0 <= sum (_nscalars e)) as He0.
  { rewrite nscalars_get_params by (apply Hch; eapply nth_error_In; exact Hk).
    apply len_nonneg. }
  rewrite py_slice_length; lia.
Qed.

Lemma enum_mapM_all_ok {A B : Type} (f : Z -> A -> result B) (l : list A) (i : Z) :
  (forall k a, nth_error l k = Some a -> exists b, f (i + Z.of_nat k) a = Ok b) ->
  exists bs, enum_mapM f i l = Ok bs.
Proof.
  revert i. induction l as [|a l IH]; intros i H; [eexists; reflexivity|].
  destruct (H 0%nat a eq_refl) as (b & Hb). rewrite Z.add_0_r in Hb.
  destruct (IH (i + 1)) as (bs & Hbs).
  { intros k a' Hk. destruct (H (S k) a' Hk) as (b' & Hb').
    exists b'. rewrite <- Hb'. f_equal. lia. }
  exists (b :: bs). simpl. rewrite Hb. simpl. rewrite Hbs. reflexivity.
Qed.

Lemma rebuild_returns_overridable (self : node) :
  constructed self ->
  forall P self',
    len P = sum (_nscalars self) ->
    rebuild self (Some P) = Ok self' ->
    overridable self = true.
Proof.
  induction 1 as [cls l hard r self Hch IH Hinit].
  intros P self' HP H.
  assert (constructed self) as Hc by (econstructor; eassumption).
  apply init_ok in Hinit as (Hself & _).
  assert (args self = l) as El by (rewrite Hself; reflexivity).
  rewrite rebuild_unfold, El in H.
  apply bind_ok in H as (l' & Hl' & _).
  apply enum_mapM_nth in Hl' as (_ & Hnth).
  rewrite overridable_unfold, El. apply andb_true_intro. split.
  - destruct (existsb is_leaf l) eqn:Ex; [|reflexivity].
    apply existsb_exists in Ex as ([v|e] & Hin & Hleaf); [|discriminate].
    apply In_nth_error in Hin as (k & Hk).
    destruct (Hnth k _ Hk) as (b & _ & Hf). cbn [rebuild_arg] in Hf.
    destruct (Z.eqb_spec (len P) 1) as [HP1|]; [|discriminate].
    apply Z.eqb_eq. congruence.
  - apply forallb_forall. intros [v|e] Hin; [reflexivity|].
    pose proof Hin as Hin'. apply In_nth_error in Hin' as (k & Hk).
    destruct (Hnth k _ Hk) as (b & _ & Hf). cbn [rebuild_arg] in Hf.
    rewrite Z.add_0_l in Hf.
    rewrite (sub_params_nat self k P Hc) in Hf
      by (rewrite El; apply nth_error_Some; congruence).
    cbn [bind] in Hf.
    destruct (rebuild e _) as [e'|] eqn:Ere; [|discriminate].
    eapply (IH e Hin); [|exact Ere].
    apply (sub_slice_length self e k P Hc); [rewrite El; exact Hk | exact HP].
Qed.

Lemma overridable_rebuild_returns (self : node) :
  constructed self ->
  forall P,
    len P = sum (_nscalars self) ->
    overridable self = true ->
    exists self', rebuild self (Some P) = Ok self'.
Proof.
  induction 1 as [cls l hard r self Hch IH Hinit].
  intros P HP Hov.
  assert (constructed self) as Hc by (econstructor; eassumption).
  apply init_ok in Hinit as (Hself & Hn0 & Har).
  assert (args self = l /\ __class__ self = cls) as (El & Ec)
    by (rewrite Hself; simpl; auto).
  rewrite overridable_unfold, El in Hov.
  apply andb_prop in Hov as (Hleafs & Hnested).
  rewrite forallb_forall in Hnested.
  rewrite rebuild_unfold, El, Ec.
  destruct (enum_mapM_all_ok (rebuild_arg self (Some P)) l 0) as (l' & Hl').
  { intros k a Hk. rewrite Z.add_0_l.
    destruct a as [v|e]; cbn [rebuild_arg].
    - assert (existsb is_leaf l = true) as Ex
        by (apply existsb_exists; exists (Leaf v); split;
            [eapply nth_error_In; exact Hk | reflexivity]).
      rewrite Ex in Hleafs. apply Z.eqb_eq in Hleafs.
      rewrite <- HP in Hleafs. rewrite Hleafs. cbn [Z.eqb Pos.eqb negb].
      destruct P as [|p P]; [discriminate Hleafs|].
      rewrite py_getitem_head. eexists. reflexivity.
    - rewrite (sub_params_nat self k P Hc)
        by (rewrite El; apply nth_error_Some; congruence).
      cbn [bind].
      destruct (IH e (nth_error_In _ _ Hk)
                  (py_slice P (sum (firstn k (_nscalars self)))
                              (sum (firstn (S k) (_nscalars self)))))
        as (e' & He').
      + apply (sub_slice_length self e k P Hc); [rewrite El; exact Hk | exact HP].
      + apply (Hnested (Expr e)). eapply nth_error_In. exact Hk.
      + rewrite He'. eexists. reflexivity. }
  rewrite Hl'. cbn [bind].
  apply enum_mapM_nth in Hl' as (Hlen & _).
  rewrite init_succeeds; [eexists; reflexivity | exact Hn0 |].
  unfold len in *. rewrite Hlen. exact Har.
Qed.

(** X6.  On a vector whose length is the last entry of [_accum_nscalars],
    [rebuild] returns exactly for the overridable trees: those where
    every node that has a scalar leaf among its arguments counts one
    scalar in all.  On every other constructed tree it raises, for every
    such vector. *)
Theorem rebuild_returns_iff (self : node) (P : list V) :
  constructed self ->
  py_getitem (_accum_nscalars self) (-1) = Ok (len P) ->
  is_ok (rebuild self (Some P)) = overridable self.
Proof.
  intros Hc Hlast.
  assert (len P = sum (_nscalars self)) as HP.
  { destruct (constructed_fields self Hc) as (_ & Hns & Hacc).
    rewrite Hacc, accum_last, <- Hns in Hlast. congruence. }
  destruct (rebuild self (Some P)) as [self'|e] eqn:Ere; simpl.
  - symmetry. apply (rebuild_returns_overridable self Hc P self' HP Ere).
  - destruct (overridable self) eqn:Hov; [|reflexivity].
    destruct (overridable_rebuild_returns self Hc P HP Hov) as (self' & H').
    congruence.
Qed.

End Overridable.

Section Determination.

Context {V C State : Type} `{PO : PyObject V State} `{SC : Scalar V C} {K R : Type}.

Local Abbreviation node := (node V C K R).

Lemma app_eq_length {A : Type} (l1 l1' l2 l2' : list A) :
  l1 ++ l2 = l1' ++ l2' -> List.length l1 = List.length l1' ->
  l1 = l1' /\ l2 = l2'.
Proof.
  revert l1'. induction l1 as [|a l1 IH]; intros [|a' l1'] H Hlen;
    try discriminate; simpl in *.
  - auto.
  - injection H as -> H. injection Hlen as Hlen.
    destruct (IH _ H Hlen) as (-> & ->). auto.
Qed.

Lemma constructed_params_length (e e' : node) :
  constructed e -> constructed e' -> shape e = shape e' ->
  List.length (get_params e) = List.length (get_params e').
Proof.
  intros Hc Hc' Hs.
  pose proof (nscalars_get_params e Hc) as H.
  pose proof (nscalars_get_params e' Hc') as H'.
  rewrite (shape_nscalars _ _ Hs) in H. unfold len in *. lia.
Qed.

(** Trees of one shape that flatten to one vector are one tree. *)
Lemma same_shape_same_params (T1 : node) :
  constructed T1 ->
  forall T2 : node,
    constructed T2 ->
    shape T1 = shape T2 ->
    get_params T1 = get_params T2 ->
    T1 = T2.
Proof.
  induction 1 as [cls l hard r T1 Hch IH Hinit].
  intros T2 Hc2 Hsh Hgp.
  apply init_ok in Hinit as (-> & _).
  destruct (constructed_inv T2 Hc2) as (Hch2 & _).
  destruct T2 as [cls2 n2 l2 hard2 r2 ns2 acc2].
  rewrite !shape_unfold in Hsh. cbn [__class__ nargs hard_args ref _nscalars
                                     _accum_nscalars args] in Hsh.
  injection Hsh as -> -> -> -> -> -> Hch_shape.
  rewrite !get_params_unfold in Hgp. cbn [args] in Hgp, Hch2.
  assert (l = l2) as ->; [|reflexivity].
  clear - Hch IH Hch2 Hch_shape Hgp.
  revert l2 Hch2 Hch_shape Hgp.
  induction l as [|a l IHl]; intros [|a2 l2] Hch2 Hsh Hgp; try discriminate.
  - reflexivity.
  - cbn [map flat_map] in Hsh, Hgp. injection Hsh as Ha Hsh.
    destruct a as [v|e], a2 as [v2|e2]; try discriminate.
    + injection Hgp as -> Hgp. f_equal.
      apply IHl; try assumption.
      * intros e He. apply Hch. right. exact He.
      * intros e He. apply IH. right. exact He.
      * intros e He. apply Hch2. right. exact He.
    + injection Ha as Ha.
      assert (constructed e) as Hce by (apply Hch; left; reflexivity).
      assert (constructed e2) as Hce2 by (apply Hch2; left; reflexivity).
      destruct (app_eq_length _ _ _ _ Hgp
                  (constructed_params_length e e2 Hce Hce2 Ha)) as (Hge & Hgl).
      rewrite (IH e (or_introl eq_refl) e2 Hce2 Ha Hge). f_equal.
      apply IHl; try assumption.
      * intros e0 He. apply Hch. right. exact He.
      * intros e0 He. apply IH. right. exact He.
      * intros e0 He. apply Hch2. right. exact He.
Qed.

(** X7.  A constructed tree is determined by its shape and the vector
    [get_params] returns for it: two constructed trees of the same shape
    and the same parameters are equal. *)
Theorem shape_params_determine (T1 T2 : node) :
  constructed T1 ->
  constructed T2 ->
  shape T1 = shape T2 ->
  get_params T1 = get_params T2 ->
  T1 = T2.
Proof.
  intros Hc1 Hc2 Hsh Hgp.
  exact (same_shape_same_params T1 Hc1 T2 Hc2 Hsh Hgp).
Qed.

(** X8.  [rebuild] on the parameters the tree already has returns the
    tree itself, for every overridable constructed tree; and whenever it
    returns on a constructed tree, overridable or not, the result is the
    tree itself. *)
Theorem rebuild_own_params (self : node) :
  constructed self ->
  (forall self', rebuild self (Some (get_params self)) = Ok self' -> self' = self)
  /\ (overridable self = true -> rebuild self (Some (get_params self)) = Ok self).
Proof.
  intros Hc.
  assert (forall self', rebuild self (Some (get_params self)) = Ok self' ->
                        self' = self) as Hsame.
  { intros self' H.
    destruct (rebuild_shape self Hc _ _ H) as (Hsh & Hc').
    apply (same_shape_same_params self' Hc' self Hc Hsh).
    apply (rebuild_get_params self Hc _ _ (eq_sym (nscalars_get_params self Hc)) H). }
  split; [exact Hsame|].
  intros Hov.
  destruct (overridable_rebuild_returns self Hc (get_params self)
              (eq_sym (nscalars_get_params self Hc)) Hov) as (self' & H).
  rewrite H. f_equal. apply Hsame. exact H.
Qed.

Lemma rebuild_loop_shape (T1 T2 : node) (Q : list V)
    (l1 l2 : list (arg V node)) :
  _accum_nscalars T1 = _accum_nscalars T2 ->
  (forall e1, In (Expr e1) l1 ->
     forall e2 q, shape e1 = shape e2 -> rebuild e1 (Some q) = rebuild e2 (Some q)) ->
  map (fun a => match a with Expr e => Some (shape e) | Leaf _ => None end) l1
  = map (fun a : arg V node =>
           match a with Expr e => Some (shape e) | Leaf _ => None end) l2 ->
  forall i,
    enum_mapM (rebuild_arg T1 (Some Q)) i l1
    = enum_mapM (rebuild_arg T2 (Some Q)) i l2.
Proof.
  intros Hacc IH. revert l2.
  induction l1 as [|a l1 IHl]; intros [|a2 l2] Hsh i; try discriminate.
  - reflexivity.
  - cbn [map] in Hsh. injection Hsh as Ha Hsh.
    cbn [enum_mapM].
    rewrite (IHl (fun e He => IH e (or_intror He)) l2 Hsh (i + 1)).
    destruct a as [v|e], a2 as [v2|e2]; try discriminate.
    + reflexivity.
    + injection Ha as Ha. cbn [rebuild_arg]. unfold _sub_params. rewrite Hacc.
      destruct (py_getitem (_accum_nscalars T2) i) as [lo|]; [|reflexivity].
      destruct (py_getitem (_accum_nscalars T2) (i + 1)) as [hi|]; [|reflexivity].
      cbn [bind]. rewrite (IH e (or_introl eq_refl) e2 _ Ha). reflexivity.
Qed.

(** X9.  [rebuild] with a vector does not look at the scalar leaves of
    its receiver: on two trees of the same shape it returns the same tree
    or raises the same exception; so rebuilding a rebuilt tree gives what
    rebuilding the original gives, the later vector replacing the earlier
    one entirely. *)
Theorem rebuild_forgets_leaves (T1 : node) :
  constructed T1 ->
  (forall (T2 : node) (Q : list V),
     shape T1 = shape T2 -> rebuild T1 (Some Q) = rebuild T2 (Some Q))
  /\ (forall (params : option (list V)) (T' : node) (Q : list V),
        rebuild T1 params = Ok T' -> rebuild T' (Some Q) = rebuild T1 (Some Q)).
Proof.
  intros Hc.
  assert (forall (T2 : node) (Q : list V),
            shape T1 = shape T2 -> rebuild T1 (Some Q) = rebuild T2 (Some Q)) as Hsame.
  { clear PO SC. induction Hc as [cls l hard r T1 Hch IH Hinit].
    intros T2 Q Hsh.
    rewrite !rebuild_unfold.
    rewrite !shape_unfold in Hsh.
    injection Hsh as Ecls _ Ehard Eref _ Eacc Hch_shape.
    apply init_ok in Hinit as (HT1 & _).
    assert (args T1 = l) as El by (rewrite HT1; reflexivity).
    rewrite El in Hch_shape |- *.
    rewrite (rebuild_loop_shape T1 T2 Q l (args T2) Eacc IH Hch_shape 0).
    rewrite Ecls, Ehard, Eref. reflexivity. }
  split; [exact Hsame|].
  intros params T' Q H.
  destruct (rebuild_shape T1 Hc params T' H) as (Hsh & _).
  symmetry. apply Hsame. symmetry. exact Hsh.
Qed.

End Determination.

(** ** The tree and the generator *)

Section TreeAndGenerator.

Context {V C State : Type} `{PO : PyObject V State} `{SC : Scalar V C} {K R : Type}.

Local Abbreviation node := (node V C K R).
Local Abbreviation ReactionSystem := (ReactionSystem V C K).
Local Abbreviation Reaction := (Reaction V C K).

Lemma factors_length (concs : list V) (rsys : ReactionSystem)
    (powers : list (K * C)) (fs : list V) :
  factors concs rsys powers = Ok fs -> List.length fs = List.length powers.
Proof.
  unfold factors. revert fs.
  induction powers as [|[k c] powers IH]; intros fs H; cbn [mapM] in H.
  - injection H as <-. reflexivity.
  - apply bind_ok in H as (b & _ & H).
    apply bind_ok in H as (bs & Hbs & [= <-]).
    simpl. f_equal. apply IH. exact Hbs.
Qed.

(** X10.  When the multiplication of the scalars is commutative and has
    [1] as a left unit, a [MassAction] node whose scalar is the resolved
    parameter of a reaction of non-empty [reac] returns, on that
    reaction, the value the generator computes for it, whenever one of
    the two returns.  When every power of [reac] is defined, or when the
    multiplication never raises, the two agree on the exception as well:
    the same value, or the same exception of a key, of an index, of a
    power or of a product. *)
Theorem MassAction_eval_law
    (mul_comm : forall x y : V, mul x y = mul y x)
    (mul_one_l : forall x : V, mul one x = Ok x)
    (conc : list V) (rsys : ReactionSystem) (state : State)
    (k : nat) (rxn : Reaction) (hard : option (list (K * C))) (r : R) :
  nth_error (rxns rsys) k = Some rxn ->
  reac rxn <> [] ->
  exists self : node,
    __init__ MassAction [Leaf (_eval_k (param rxn) state)] hard r = Ok self
    /\ returned (eval self rsys (Z.of_nat k) conc None)
       = returned (rate_of conc rsys None state (Z.of_nat k) rxn)
    /\ (is_ok (factors conc rsys (reac rxn)) = true
        \/ (forall x y : V, is_ok (mul x y) = true) ->
        eval self rsys (Z.of_nat k) conc None
        = rate_of conc rsys None state (Z.of_nat k) rxn).
Proof.
  intros Hk Hne. eexists. split; [reflexivity|].
  rewrite eval_unfold.
  unfold eval_formula, rate_of, rate_loop, eval_arg. cbn [__class__ args].
  rewrite py_getitem_head. cbn [bind].
  rewrite (py_getitem_ok_nat _ _ _ Hk). cbn [bind].
  destruct (factors conc rsys (reac rxn)) as [fs|e] eqn:Ef.
  - rewrite (loop_factors_ok _ _ _ _ _ Ef). cbn [bind].
    destruct fs as [|x fs].
    { apply factors_length in Ef. destruct (reac rxn); [contradiction | discriminate]. }
    cbn [reduce foldM]. rewrite mul_one_l. cbn [bind].
    destruct (foldM mul fs x) as [p|e]; cbn [bind].
    + rewrite mul_comm. split; [reflexivity | intros _; reflexivity].
    + split; [reflexivity | intros _; reflexivity].
  - destruct (loop_factors_raise _ _ _ one _ Ef) as (e' & -> & He').
    cbn [bind]. split; [reflexivity|].
    intros [Hok|Htot]; [discriminate | rewrite (He' Htot); reflexivity].
Qed.

Lemma yield_all_raise {A : Type} (vs : list A) (e : exn) (rest : list (result A)) :
  yielded (yield_all (map Ok vs ++ Raise e :: rest)) = vs
  /\ raised (yield_all (map Ok vs ++ Raise e :: rest)) = Some e.
Proof.
  induction vs as [|v vs (IH1 & IH2)]; [split; reflexivity|].
  cbn [map app yield_all yielded raised]. rewrite IH1, IH2. split; reflexivity.
Qed.

Lemma enumerate_from_app {A : Type} (l1 l2 : list A) (i : Z) :
  enumerate_from i (l1 ++ l2)
  = enumerate_from i l1 ++ enumerate_from (i + len l1) l2.
Proof.
  revert i. induction l1 as [|a l1 IH]; intros i.
  - simpl. f_equal. unfold len. simpl. lia.
  - cbn [app enumerate_from]. rewrite IH, len_cons. do 3 f_equal. lia.
Qed.

Lemma enumerate_from_index {A : Type} (l : list A) (i j : Z) (a : A) :
  In (j, a) (enumerate_from i l) -> i <= j < i + len l.
Proof.
  revert i. induction l as [|b l IH]; intros i H; [contradiction|].
  rewrite len_cons. pose proof (len_nonneg l).
  destruct H as [[= <- <-]|H]; [lia|].
  apply IH in H. lia.
Qed.

Lemma enumerate_from_In {A : Type} (l : list A) (i j : Z) (a : A) :
  In (j, a) (enumerate_from i l) -> In a l.
Proof.
  revert i. induction l as [|b l IH]; intros i H; [contradiction|].
  destruct H as [[= _ <-]|H]; [left; reflexivity | right; eapply IH; exact H].
Qed.

(** X11.  With an override of fewer entries than there are reactions,
    the generator yields one rate for each entry and then dies of
    IndexError, provided the rate of every reaction that has an entry is
    defined and the inner loop of the first reaction without entry
    returns its product: the missing entry is only looked up after that
    loop, so a key, an index, a power or a product that raises there
    comes first. *)
Theorem short_params_IndexError (conc : list V) (rsys : ReactionSystem)
    (ps : list V) (state : State) :
  (List.length ps < List.length (rxns rsys))%nat ->
  (forall j rxn, In (j, rxn) (enumerate (firstn (List.length ps) (rxns rsys))) ->
     is_ok (rate_of conc rsys (Some ps) state j rxn) = true) ->
  (forall rxn, nth_error (rxns rsys) (List.length ps) = Some rxn ->
     is_ok (rate_loop conc rsys rxn) = true) ->
  List.length (yielded (law_of_mass_action_rates conc rsys (Some ps) state))
  = List.length ps
  /\ raised (law_of_mass_action_rates conc rsys (Some ps) state) = Some IndexError.
Proof.
  intros Hlt Hok Hloop.
  unfold law_of_mass_action_rates. rewrite rates_from_yield_all.
  destruct (nth_error (rxns rsys) (List.length ps)) as [rxn|] eqn:En;
    [|apply nth_error_None in En; lia].
  specialize (Hloop rxn eq_refl).
  destruct (nth_error_split _ _ En) as (l1 & l2 & Hrx & Hl1).
  rewrite Hrx in Hok |- *.
  rewrite firstn_app, Hl1 in Hok.
  replace (List.length ps - List.length ps)%nat with 0%nat in Hok by lia.
  rewrite firstn_all2 in Hok by lia. cbn [firstn] in Hok.
  rewrite app_nil_r in Hok. unfold enumerate in Hok.
  rewrite enumerate_from_app. cbn [enumerate_from]. rewrite map_app. cbn [map].
  assert (rate_of conc rsys (Some ps) state (0 + len l1) rxn = Raise IndexError) as ->.
  { unfold rate_of.
    destruct (rate_loop conc rsys rxn); [|discriminate]. cbn [bind].
    unfold len. rewrite Z.add_0_l, Hl1, py_getitem_nat.
    rewrite (proj2 (nth_error_None ps (List.length ps))) by lia. reflexivity. }
  assert (exists vs, map (fun '(j, rxn0) => rate_of conc rsys (Some ps) state j rxn0)
                         (enumerate_from 0 l1) = map Ok vs
                     /\ List.length vs = List.length l1) as (vs & -> & Hvs).
  { clear - Hok. revert Hok. generalize 0.
    induction l1 as [|b l1 IH]; intros i Hall; [exists []; split; reflexivity|].
    cbn [enumerate_from map].
    destruct (IH (i + 1)) as (vs & Hvs & Hlen).
    { intros j rxn0 Hin. apply Hall. right. exact Hin. }
    specialize (Hall i b (or_introl eq_refl)).
    destruct (rate_of conc rsys (Some ps) state i b) as [v|]; [|discriminate].
    exists (v :: vs). cbn [map]. rewrite Hvs. split; [reflexivity | simpl; congruence]. }
  destruct (yield_all_raise vs IndexError
              (map (fun '(j, rxn0) => rate_of conc rsys (Some ps) state j rxn0)
                   (enumerate_from (0 + len l1 + 1) l2))) as (Hy & Hr).
  rewrite Hy, Hr. split; [congruence | reflexivity].
Qed.

End TreeAndGenerator.

(** ** The [ref] annotation *)

Section NodeInduction.

Context {V C K R : Type}.
Variable P : node V C K R -> Prop.
Hypothesis step :
  forall self, (forall e, In (Expr e) (args self) -> P e) -> P self.

(** Induction on a tree, with the property at hand for the nested nodes. *)
Lemma node_nested_ind : forall self, P self.
Proof.
  fix IH 1. intros [cls n l hard r ns acc]. apply step. cbn [args].
  induction l as [|a l IHl]; intros e He.
  - destruct He.
  - destruct He as [He|He].
    + destruct a as [v|e0]; [discriminate He|].
      injection He as <-. apply IH.
    + apply IHl. exact He.
Qed.

End NodeInduction.

Section Ref.

Context {V C State : Type} `{PO : PyObject V State} `{SC : Scalar V C}
        {K R R' : Type}.
Variable f : R -> R'.

Local Abbreviation map_arg :=
  (fun a : arg V (node V C K R) =>
     match a with
     | Expr e => Expr (map_ref f e)
     | Leaf v => Leaf v
     end).

Lemma map_ref_unfold (self : node V C K R) :
  map_ref f self =
  Node (__class__ self) (nargs self) (map map_arg (args self))
       (hard_args self) (f (ref self)) (_nscalars self) (_accum_nscalars self).
Proof. destruct self; reflexivity. Qed.

Lemma py_getitem_In {A : Type} (l : list A) (i : Z) (a : A) :
  py_getitem l i = Ok a -> In a l.
Proof.
  unfold py_getitem. destruct (_ && _); [|discriminate].
  destruct (nth_error l _) eqn:E; [|discriminate].
  intros [= <-]. eapply nth_error_In. exact E.
Qed.

Lemma get_nscalars_map_ref (l : list (arg V (node V C K R))) :
  _get_nscalars (map map_arg l) = _get_nscalars l.
Proof.
  unfold _get_nscalars. rewrite map_map. apply map_ext.
  intros [v|e]; [reflexivity|]. rewrite map_ref_unfold. reflexivity.
Qed.

Lemma init_map_ref (cls : rate_class) (l : list (arg V (node V C K R)))
    (hard : option (list (K * C))) (r : R) :
  __init__ cls (map map_arg l) hard (f r) =
  match __init__ cls l hard r with
  | Ok T => Ok (map_ref f T)
  | Raise e => Raise e
  end.
Proof.
  unfold __init__, len. rewrite length_map, get_nscalars_map_ref.
  destruct (class_nargs cls =? 0); [reflexivity|].
  destruct (negb _); reflexivity.
Qed.

Lemma enum_mapM_map_ref (F : Z -> arg V (node V C K R) -> result (arg V (node V C K R)))
    (F' : Z -> arg V (node V C K R') -> result (arg V (node V C K R')))
    (l : list (arg V (node V C K R))) (i : Z) :
  (forall j a, In a l ->
     F' j (map_arg a) = match F j a with
                        | Ok b => Ok (map_arg b)
                        | Raise e => Raise e
                        end) ->
  enum_mapM F' i (map map_arg l) =
  match enum_mapM F i l with
  | Ok bs => Ok (map map_arg bs)
  | Raise e => Raise e
  end.
Proof.
  revert i. induction l as [|a l IH]; intros i H; [reflexivity|].
  cbn [map enum_mapM]. rewrite (H i a (or_introl eq_refl)).
  destruct (F i a) as [b|e]; [|reflexivity]. cbn [bind].
  rewrite IH by (intros j a' Ha'; apply H; right; exact Ha').
  destruct (enum_mapM F (i + 1) l); reflexivity.
Qed.

(** X12.  The [ref] of the nodes is ignored by [get_params] and by
    [eval], and [rebuild] carries it over as it is: changing the [ref]
    annotations of a tree changes neither its parameters nor any of its
    values or exceptions, and commutes with [rebuild]. *)
Theorem ref_ignored (self : node V C K R) :
  get_params (map_ref f self) = get_params self
  /\ (forall (rsys : ReactionSystem V C K) ri concs params,
        eval (map_ref f self) rsys ri concs params = eval self rsys ri concs params)
  /\ (forall params,
        rebuild (map_ref f self) params =
        match rebuild self params with
        | Ok T' => Ok (map_ref f T')
        | Raise e => Raise e
        end).
Proof.
  induction self as [self IH] using node_nested_ind.
  split; [|split].
  - rewrite !get_params_unfold, map_ref_unfold. cbn [args].
    rewrite !flat_map_concat_map, map_map. f_equal.
    apply map_ext_in. intros [v|e] Hin; [reflexivity|].
    apply (IH e Hin).
  - intros rsys ri concs params.
    assert (forall i p, eval_arg (map_ref f self) rsys ri concs i p
                        = eval_arg self rsys ri concs i p) as Harg.
    { intros i p. unfold eval_arg, _sub_params.
      rewrite map_ref_unfold. cbn [args _accum_nscalars].
      rewrite py_getitem_map.
      destruct (py_getitem (args self) i) as [[v|e]|ex] eqn:Ea; try reflexivity.
      cbn [bind].
      destruct (match p with
                | Some ps => _
                | None => Ok None
                end) as [p'|]; [|reflexivity].
      cbn [bind]. apply (IH e (py_getitem_In _ _ _ Ea)). }
    rewrite !eval_unfold. unfold eval_formula.
    replace (__class__ (map_ref f self)) with (__class__ self)
      by (rewrite map_ref_unfold; reflexivity).
    replace (hard_args (map_ref f self)) with (hard_args self)
      by (rewrite map_ref_unfold; reflexivity).
    replace (nargs (map_ref f self)) with (nargs self)
      by (rewrite map_ref_unfold; reflexivity).
    destruct (__class__ self); rewrite ?Harg; try reflexivity.
    rewrite (mapM_ext _ (fun idx => eval_arg self rsys ri concs idx params))
      by (intros; apply Harg).
    reflexivity.
  - intros params. rewrite !rebuild_unfold.
    replace (args (map_ref f self)) with (map map_arg (args self))
      by (rewrite map_ref_unfold; reflexivity).
    rewrite (enum_mapM_map_ref (rebuild_arg self params)).
    + replace (__class__ (map_ref f self)) with (__class__ self)
        by (rewrite map_ref_unfold; reflexivity).
      replace (hard_args (map_ref f self)) with (hard_args self)
        by (rewrite map_ref_unfold; reflexivity).
      replace (ref (map_ref f self)) with (f (ref self))
        by (rewrite map_ref_unfold; reflexivity).
      destruct (enum_mapM (rebuild_arg self params) 0 (args self)) as [l'|e];
        [|reflexivity].
      cbn [bind]. apply init_map_ref.
    + intros j [v|e] Hin; cbn [rebuild_arg].
      * destruct params as [ps|]; [|reflexivity].
        destruct (negb (len ps =? 1)); [reflexivity|].
        destruct (py_getitem ps 0); reflexivity.
      * unfold _sub_params.
        replace (_accum_nscalars (map_ref f self)) with (_accum_nscalars self)
          by (rewrite map_ref_unfold; reflexivity).
        destruct (match params with
                  | Some ps => _
                  | None => Ok None
                  end) as [p'|]; [|reflexivity].
        cbn [bind]. rewrite (proj2 (proj2 (IH e Hin)) p').
        destruct (rebuild e p'); reflexivity.
Qed.

End Ref.

(** ** What [rebuild] allocates *)

Section Fresh.

Context {V C State : Type} `{PO : PyObject V State} `{SC : Scalar V C} {K R : Type}.

Local Abbreviation node := (node V C K R).
Local Abbreviation store := (store V C K R).
Local Abbreviation object := (object V C K R).

Lemma fresh_tree_mono (n m : nat) (s ext : store) (a : addr) :
  fresh_tree n s a -> (m <= n)%nat -> fresh_tree m (s ++ ext) a.
Proof.
  intros H Hm. induction H as [a o Ha Hn _ IH].
  apply (fresh_object _ _ a o).
  - rewrite nth_error_app1; [exact Ha|]. apply nth_error_Some. congruence.
  - lia.
  - exact IH.
Qed.

Lemma fresh_tree_lower (n m : nat) (s : store) (a : addr) :
  fresh_tree n s a -> (m <= n)%nat -> fresh_tree m s a.
Proof.
  intros H Hm. induction H as [a o Ha Hn _ IH].
  apply (fresh_object _ _ a o); [exact Ha | lia | exact IH].
Qed.

Lemma size_unfold (T : node) :
  size T = S (list_sum (map (fun a => match a with
                                      | Expr e => size e
                                      | Leaf _ => O
                                      end) (args T))).
Proof. destruct T; reflexivity. Qed.

Lemma rebuild_loop_allocates (self : addr) (o : object)
    (params : option (list V)) (limit : nat) (tas : list (arg V node)) :
  (forall e, In (Expr e) tas ->
     constructed e /\ (depth e <= limit)%nat /\ allocates limit e) ->
  forall (oas oas' : list (arg V addr)) (i : Z) (s s2 : store),
    repr_args s oas tas ->
    enum_mapS (store_rebuild_arg (store_rebuild limit) self params) i oas s
    = (s2, Ok oas') ->
    (exists ext, s2 = s ++ ext)
    /\ List.length s2
       = (List.length s
          + list_sum (map (fun a => match a with
                                    | Expr e => size e
                                    | Leaf _ => O
                                    end) tas))%nat
    /\ forall a', In (Expr a') oas' -> fresh_tree (List.length s) s2 a'.
Proof.
  intros IH.
  induction tas as [|ta tas IHtas]; intros oas oas' i s s2 Hargs Hrun;
    inversion Hargs as [|v oas0 tas0 Hrest|a e oas0 tas0 Hre Hrest]; subst;
    cbn [enum_mapS store_rebuild_arg] in Hrun.
  - injection Hrun as <- <-. split; [exists []; symmetry; apply app_nil_r|].
    split; [simpl; lia | intros a' []].
  - destruct params as [ps|];
      [destruct (negb (len ps =? 1)); [discriminate|];
       destruct (py_getitem ps 0) as [p0|]; [|discriminate];
       cbn [bind] in Hrun|];
      (destruct (enum_mapS _ (i + 1) oas0 s) as [s3 [bs|]] eqn:Erest; [|discriminate];
       injection Hrun as <- <-;
       destruct (IHtas (fun e He => IH e (or_intror He)) _ _ _ _ _ Hrest Erest)
         as (Hext & Hlen & Hfresh);
       split; [exact Hext|]; split; [exact Hlen|];
       intros a' [Ha'|Ha']; [discriminate | apply Hfresh; exact Ha']).
  - destruct (store_sub_params s self i params) as [p|]; [|discriminate].
    destruct (IH e (or_introl eq_refl)) as (Hce & Hde & Hall).
    destruct (store_rebuild_simulates e Hce limit s a p Hde Hre)
      as (n1 & r1 & Hrun1 & _).
    rewrite Hrun1 in Hrun.
    destruct r1 as [a1|]; [|discriminate].
    destruct (Hall s (s ++ n1) a a1 p Hre Hrun1) as (Hfresh1 & Hlen1).
    destruct (enum_mapS _ (i + 1) oas0 (s ++ n1)) as [s3 [bs|]] eqn:Erest;
      [|discriminate].
    injection Hrun as <- <-.
    destruct (IHtas (fun e0 He => IH e0 (or_intror He)) _ _ _ _ _
                (repr_args_mono _ n1 _ _ Hrest) Erest)
      as ((ext & ->) & Hlen & Hfresh).
    split; [exists (n1 ++ ext); symmetry; apply app_assoc|].
    split; [cbn [map list_sum fold_right]; fold (list_sum (map (fun a0 : arg V node => match a0 with Expr e0 => size e0 | Leaf _ => O end) tas)); lia|].
    intros a' [Ha'|Ha'].
    + injection Ha' as <-. eapply fresh_tree_mono; [exact Hfresh1 | lia].
    + eapply fresh_tree_lower; [apply Hfresh; exact Ha'|].
      rewrite length_app. lia.
Qed.

Lemma store_rebuild_allocates (T : node) :
  constructed T ->
  forall limit, (depth T <= limit)%nat -> allocates limit T.
Proof.
  induction 1 as [cls l hard r T Hch IH Hinit].
  intros limit Hd s s' a a' p Hrep Hrun.
  apply init_ok in Hinit as (HT & _).
  assert (args T = l) as El by (rewrite HT; reflexivity).
  destruct limit as [|limit]; [rewrite depth_unfold in Hd; lia|].
  inversion Hrep as [a0 o T0 Hn Hc Hna Hh Hr Hns Hacc Hargs]; subst a0 T0.
  cbn [store_rebuild] in Hrun. unfold deref at 1 in Hrun. rewrite Hn in Hrun.
  destruct (enum_mapS _ 0 (o_args o) s) as [s1 [args'|]] eqn:Eloop; [|discriminate].
  destruct (rebuild_loop_allocates a o p limit (args T)) with
    (oas := o_args o) (oas' := args') (i := 0) (s := s) (s2 := s1)
    as ((ext & ->) & Hlen & Hfresh); [|exact Hargs|exact Eloop|].
  { intros e He. rewrite El in He.
    assert (depth e <= limit)%nat as Hde
      by (rewrite <- El in He; apply depth_child in He; lia).
    split; [apply Hch; exact He|]. split; [exact Hde|].
    apply IH; assumption. }
  unfold deref in Hrun.
  rewrite nth_error_app1, Hn in Hrun by (apply nth_error_Some; congruence).
  unfold store_init in Hrun.
  destruct (class_nargs (o_class o) =? 0); [discriminate|].
  destruct (negb _); [discriminate|].
  destruct (store_get_nscalars (s ++ ext) args') as [ns'|]; [|discriminate].
  injection Hrun as <- <-. split.
  - eapply fresh_object.
    + rewrite nth_error_app2, Nat.sub_diag by lia. reflexivity.
    + rewrite length_app. lia.
    + cbn [o_args]. intros a' Ha'.
      eapply fresh_tree_mono; [apply Hfresh; exact Ha' | lia].
  - rewrite length_app, size_unfold, Hlen. simpl. lia.
Qed.

(** X13.  The tree [rebuild] returns shares no node with its receiver,
    and [rebuild] allocates as many objects as the tree has nodes: the
    returned object and every object nested in it are new, and the store
    grows by the size of the tree (a node that occurs several times in
    the receiver is copied once per occurrence). *)
Theorem rebuild_allocates (T : node) (s s' : store) (a a' : addr)
    (params : option (list V)) (limit : nat) :
  constructed T -> repr s a T -> (depth T <= limit)%nat ->
  store_rebuild limit a params s = (s', Ok a') ->
  fresh_tree (List.length s) s' a'
  /\ List.length s' = (List.length s + size T)%nat.
Proof.
  intros Hc Hrep Hd Hrun.
  exact (store_rebuild_allocates T Hc limit Hd s s' a a' params Hrep Hrun).
Qed.

End Fresh.

(** ** Checks of the further properties on the example trees *)

Lemma ex_quotient_constructed : constructed ex_quotient.
Proof.
  apply (constructed_init Quotient [Leaf 1%float; Leaf 2%float] None tt).
  - intros e [H|[H|[]]]; discriminate.
  - reflexivity.
Qed.

Lemma ex_mass1_constructed : constructed ex_mass1.
Proof.
  apply (constructed_init MassAction [Leaf 1%float] None tt).
  - intros e [H|[]]. discriminate.
  - reflexivity.
Qed.

Lemma accum_layout_ex :
  constructed ex_tree
  /\ nargs ex_tree = len (args ex_tree)
  /\ len (_accum_nscalars ex_tree) = nargs ex_tree + 1.
Proof.
  split; [exact ex_tree_constructed|].
  destruct (accum_layout ex_tree ex_tree_constructed) as (H1 & H2 & _).
  split; [exact H1 | exact H2].
Defined.

Lemma sub_params_tile_ex :
  exists slices,
    mapM (fun i => _sub_params ex_tree i (Some [5%float])) (range (nargs ex_tree))
    = Ok (map Some slices)
    /\ List.length slices = List.length (args ex_tree)
    /\ List.concat slices = [5%float].
Proof.
  apply (sub_params_tile ex_tree [5%float] ex_tree_constructed). reflexivity.
Defined.

Lemma eval_override_rebuild_ex :
  exists T',
    rebuild ex_tree (Some [5%float]) = Ok T'
    /\ eval ex_tree water_rsys 0 water_conc (Some [5%float])
       = eval T' water_rsys 0 water_conc None.
Proof.
  eexists. split; [reflexivity|].
  apply (eval_override_rebuild ex_tree ex_tree_constructed). reflexivity.
Defined.

Lemma Quotient_eval_routing_ex :
  exists self,
    __init__ Quotient [Expr ex_mass; Expr ex_mass1] None tt = Ok self
    /\ eval self water_rsys 0 water_conc (Some [5; 0]%float) =
       (a <- eval ex_mass water_rsys 0 water_conc
               (Some (firstn (List.length (get_params ex_mass)) [5; 0]%float)) ;;
        b <- eval ex_mass1 water_rsys 0 water_conc
               (Some (skipn (List.length (get_params ex_mass)) [5; 0]%float)) ;;
        div a b).
Proof.
  apply (Quotient_eval_routing ex_mass ex_mass1 None tt [5; 0]%float
           water_rsys 0 water_conc ex_mass_constructed ex_mass1_constructed).
  reflexivity.
Defined.

(** The same quotient under the overrides [[5.0, 7.0]] and [[5.0, 0.0]]:
    the second makes the denominator [0.0 * 55.4], and the division of
    the floats raises. *)
Lemma ex_ratio_eval :
  eval ex_ratio water_rsys 0 water_conc (Some [5; 7]%float)
  = Ok (PrimFloat.div (5 * 55.4) (7 * 55.4))%float
  /\ eval ex_ratio water_rsys 0 water_conc (Some [5; 0]%float)
     = Raise ZeroDivisionError.
Proof. split; vm_compute; reflexivity. Qed.

Lemma GeneralPow_as_MassAction_ex :
  eval (Node GeneralPow 1 [Leaf 2%float] (Some (reac water_rxn)) tt [1] [0; 1])
       water_rsys 0 water_conc None
  = eval ex_mass water_rsys 0 water_conc None.
Proof.
  apply (GeneralPow_as_MassAction [Leaf 2%float] None tt tt water_rsys 0 water_rxn
           water_conc None); reflexivity.
Defined.

Lemma rebuild_returns_iff_ex :
  is_ok (rebuild ex_quotient (Some [3; 4]%float)) = overridable ex_quotient
  /\ is_ok (rebuild ex_tree (Some [5%float])) = overridable ex_tree.
Proof.
  split.
  - apply (rebuild_returns_iff ex_quotient [3; 4]%float ex_quotient_constructed).
    reflexivity.
  - apply (rebuild_returns_iff ex_tree [5%float] ex_tree_constructed).
    reflexivity.
Defined.

Lemma shape_params_determine_ex :
  exists T', rebuild ex_tree (Some [2%float]) = Ok T' /\ ex_tree = T'.
Proof.
  eexists. split; [reflexivity|].
  apply (shape_params_determine ex_tree _ ex_tree_constructed);
    [ | reflexivity | reflexivity].
  apply (constructed_init Quotient [Expr ex_mass; Expr ex_empty_sum] None tt).
  - intros e [H|[H|[]]]; injection H as <-;
      [exact ex_mass_constructed | exact ex_empty_sum_constructed].
  - reflexivity.
Defined.

Lemma rebuild_own_params_ex :
  rebuild ex_tree (Some (get_params ex_tree)) = Ok ex_tree.
Proof.
  apply (proj2 (rebuild_own_params ex_tree ex_tree_constructed)). reflexivity.
Defined.

Lemma rebuild_forgets_leaves_ex :
  exists T',
    rebuild ex_tree (Some [5%float]) = Ok T'
    /\ rebuild T' (Some [7%float]) = rebuild ex_tree (Some [7%float]).
Proof.
  eexists. split; [reflexivity|].
  apply (proj2 (rebuild_forgets_leaves ex_tree ex_tree_constructed) (Some [5%float])).
  reflexivity.
Defined.

Lemma MassAction_eval_law_ex :
  exists self : node Fraction Z string unit,
    __init__ MassAction [Leaf (_eval_k (param ab_rxn) tt)] None tt = Ok self
    /\ returned (eval self ab_rsys (Z.of_nat 0) ab_conc None)
       = returned (rate_of ab_conc ab_rsys None tt (Z.of_nat 0) ab_rxn)
    /\ eval self ab_rsys (Z.of_nat 0) ab_conc None
       = rate_of ab_conc ab_rsys None tt (Z.of_nat 0) ab_rxn.
Proof.
  destruct (MassAction_eval_law (PO := fraction_object) (SC := fraction_scalar)
              (K := string) (R := unit)
              (fun x y => f_equal Ok (Qcanon.Qcmult_comm x y))
              (fun x => f_equal Ok (Qcanon.Qcmult_1_l x))
              ab_conc ab_rsys tt 0%nat ab_rxn None tt)
    as (self & Hinit & Hret & Heq).
  - reflexivity.
  - discriminate.
  - exists self. split; [exact Hinit|]. split; [exact Hret|].
    apply Heq. right. intros x y. reflexivity.
Defined.

Lemma short_params_IndexError_ex :
  List.length (yielded (law_of_mass_action_rates water_conc water2_rsys
                          (Some [1e-4%float]) tt)) = 1%nat
  /\ raised (law_of_mass_action_rates water_conc water2_rsys
               (Some [1e-4%float]) tt) = Some IndexError.
Proof.
  apply (short_params_IndexError water_conc water2_rsys [1e-4%float] tt).
  - simpl. lia.
  - intros j rxn [H|[]]. injection H as <- <-. reflexivity.
  - intros rxn H. injection H as <-. reflexivity.
Defined.

Lemma rebuild_allocates_ex :
  fresh_tree (List.length ex_store)
    (ex_store ++
     [ Object MassAction 1 [Leaf 5%float] None tt [1] [0; 1];
       Object Sum 0 [] None tt [] [0];
       Object Quotient 2 [Expr 3%nat; Expr 4%nat] None tt [1; 0] [0; 1; 1] ])
    5%nat
  /\ List.length
       (ex_store ++
        [ Object MassAction 1 [Leaf 5%float] None tt [1] [0; 1];
          Object Sum 0 [] None tt [] [0];
          Object Quotient 2 [Expr 3%nat; Expr 4%nat] None tt [1; 0] [0; 1; 1] ])
     = (List.length ex_store + size ex_tree)%nat.
Proof.
  apply (rebuild_allocates ex_tree ex_store _ 2%nat 5%nat (Some [5%float]) 2%nat
           ex_tree_constructed ex_store_repr).
  - simpl. lia.
  - reflexivity.
Defined.
